(** * Mushland: the game-state engine, the deck builder and the drag tracker

    A shallow embedding of [src/App.tsx].  JavaScript numbers that the game
    only ever uses as integers (ids, cost, points, nutrients, spores, score)
    are [Z]; pointer coordinates and the values of [Math.random()] are
    rationals [Q], with products and comparisons computed exactly. *)

From Stdlib Require Import ZArith QArith Qround Qminmax Lia Lqa.
From stdpp Require Import base list strings.

Close Scope Q_scope.
Local Open Scope Z_scope.

(** ** Types and cards *)

Module Cards.

(** [type Habitat = 'forest' | 'log' | 'soil'] *)
Inductive Habitat := Forest | Log | Soil.

(** [type Power = 'gainSpore' | 'gainNutrient' | 'drawCard'] *)
Inductive Power := GainSpore | GainNutrient | DrawCard.

#[export] Instance Habitat_eq_dec : EqDecision Habitat.
Proof. solve_decision. Defined.

#[export] Instance Power_eq_dec : EqDecision Power.
Proof. solve_decision. Defined.

(** [interface Mushroom] *)
Record Mushroom := {
  id : Z;
  name : string;
  habitat : Habitat;
  cost : Z;
  points : Z;
  power : option Power;
  art : string
}.

(** [Omit<Mushroom, 'id'>], the type of the catalog entries. *)
Record Base := {
  base_name : string;
  base_habitat : Habitat;
  base_cost : Z;
  base_points : Z;
  base_power : option Power;
  base_art : string
}.

#[export] Instance Base_eq_dec : EqDecision Base.
Proof. solve_decision. Defined.

#[export] Instance Mushroom_eq_dec : EqDecision Mushroom.
Proof. solve_decision. Defined.

(** [{ ...c, id: n }] *)
Definition with_id (c : Base) (n : Z) : Mushroom :=
  {| id := n; name := base_name c; habitat := base_habitat c;
     cost := base_cost c; points := base_points c; power := base_power c;
     art := base_art c |}.

(** The catalog entry a card instance was copied from: the card less its id. *)
Definition template (m : Mushroom) : Base :=
  {| base_name := name m; base_habitat := habitat m; base_cost := cost m;
     base_points := points m; base_power := power m; base_art := art m |}.

Definition BASE_CARDS : list Base := [
  {| base_name := "Fly Agaric"; base_habitat := Forest; base_cost := 2;
     base_points := 2; base_power := Some GainSpore;
     base_art := "images/mushrooms/agaric.jpg" |};
  {| base_name := "Shiitake"; base_habitat := Log; base_cost := 1;
     base_points := 3; base_power := Some GainNutrient;
     base_art := "images/mushrooms/shiitake.jpg" |};
  {| base_name := "Lion's Mane"; base_habitat := Forest; base_cost := 2;
     base_points := 4; base_power := Some DrawCard;
     base_art := "images/mushrooms/lionsmane.jpg" |};
  {| base_name := "Morel"; base_habitat := Soil; base_cost := 3;
     base_points := 3; base_power := Some GainSpore;
     base_art := "images/mushrooms/morel.jpg" |};
  {| base_name := "Oyster"; base_habitat := Log; base_cost := 1;
     base_points := 2; base_power := Some GainNutrient;
     base_art := "images/mushrooms/oyster.jpg" |};
  {| base_name := "Reishi"; base_habitat := Forest; base_cost := 4;
     base_points := 5; base_power := Some GainNutrient;
     base_art := "images/mushrooms/reishi.jpg" |}
].

(** *** createDeck

    The two pieces of ambient state [createDeck] touches are threaded
    explicitly: the module-level [idCounter], and [Math.random], given as
    the stream [random] of the values its successive calls return. *)

(** [BASE_CARDS.forEach(c => deck.push({ ...c, id: idCounter++ }))] *)
Definition push_all (st : list Mushroom * Z) : list Mushroom * Z :=
  foldl (fun '(deck, idCounter) c => (deck ++ [with_id c idCounter], idCounter + 1))
        st BASE_CARDS.

(** [for (let i = 0; i < 6; i++) ...], as the number of rounds left. *)
Fixpoint fill (rounds : nat) (st : list Mushroom * Z) : list Mushroom * Z :=
  match rounds with
  | O => st
  | S rounds' => fill rounds' (push_all st)
  end.

(** [Math.floor(r * (i + 1))] *)
Definition random_index (r : Q) (i : nat) : nat :=
  Z.to_nat (Qfloor (r * inject_Z (Z.of_nat (i + 1)))).

(** [[deck[i], deck[j]] = [deck[j], deck[i]]]: the right-hand side is read
    first, then [deck[i]] and [deck[j]] are written in that order.  An index
    outside the array would make the source store [undefined]; [Math.random()
    < 1] keeps [j <= i] (see [random_index_le]), and the embedding leaves the
    deck alone there. *)
Definition swap (deck : list Mushroom) (i j : nat) : list Mushroom :=
  match deck !! i, deck !! j with
  | Some di, Some dj => <[j:=di]> (<[i:=dj]> deck)
  | _, _ => deck
  end.

(** [for (let i = deck.length - 1; i > 0; i--) { const j = ...; swap }];
    [calls] counts the calls of [Math.random] made so far. *)
Fixpoint shuffle (random : nat -> Q) (calls : nat) (i : nat)
         (deck : list Mushroom) : list Mushroom :=
  match i with
  | O => deck
  | S i' =>
      let j := random_index (random calls) i in
      shuffle random (S calls) i' (swap deck i j)
  end.

(** Returns the deck and the new value of [idCounter]. *)
Definition createDeck (idCounter : Z) (random : nat -> Q) : list Mushroom * Z :=
  let '(deck, idCounter') := fill 6 ([], idCounter) in
  (shuffle random 0 (length deck - 1)%nat deck, idCounter').

End Cards.

(** ** Game logic *)

Module Engine.
Import Cards.

(** [Record<Habitat, A>]: an object with exactly the keys forest, log, soil. *)
Record PerHabitat (A : Type) := { forest : A; log : A; soil : A }.
Arguments forest {A} _.
Arguments log {A} _.
Arguments soil {A} _.

(** [r[h]] *)
Definition get {A} (r : PerHabitat A) (h : Habitat) : A :=
  match h with
  | Forest => forest r
  | Log => log r
  | Soil => soil r
  end.

(** [{ ...r, [h]: v }] *)
Definition put {A} (r : PerHabitat A) (h : Habitat) (v : A) : PerHabitat A :=
  match h with
  | Forest => {| forest := v; log := log r; soil := soil r |}
  | Log => {| forest := forest r; log := v; soil := soil r |}
  | Soil => {| forest := forest r; log := log r; soil := v |}
  end.

(** [interface State] *)
Record State := {
  deck : list Mushroom;
  hand : list Mushroom;
  habitats : PerHabitat (list Mushroom);
  nutrients : Z;
  spores : Z;
  score : Z
}.

(** [initialState]; its deck is the one [createDeck()] returned when the
    module was loaded, with [idCounter] still 0. *)
Definition initialState (random : nat -> Q) : State :=
  {| deck := fst (createDeck 0 random);
     hand := [];
     habitats := {| forest := []; log := []; soil := [] |};
     nutrients := 8;
     spores := 0;
     score := 0 |}.

(** [type Action] *)
Inductive Action :=
| DRAW
| PLAY (cardId : Z) (habitat : Habitat)
| ACTIVATE (payload : Habitat).

(** [case 'DRAW'] of [reducer]. *)
Definition draw (state : State) : State :=
  match deck state with
  | [] => state
  | top :: _ =>
      {| deck := drop 1 (deck state);
         hand := hand state ++ [top];
         habitats := habitats state;
         nutrients := nutrients state;
         spores := spores state;
         score := score state |}
  end.

(** [newState] as first built in [case 'PLAY'], before the power is looked at. *)
Definition play_update (state : State) (card : Mushroom) (cardId : Z)
           (habitat : Habitat) : State :=
  {| deck := deck state;
     hand := List.filter (fun c => negb (id c =? cardId)) (hand state);
     habitats := put (habitats state) habitat (get (habitats state) habitat ++ [card]);
     nutrients := nutrients state - cost card;
     spores := spores state;
     score := score state + points card |}.

(** [newState.spores += 1] *)
Definition add_spore (s : State) : State :=
  {| deck := deck s; hand := hand s; habitats := habitats s;
     nutrients := nutrients s; spores := spores s + 1; score := score s |}.

(** [newState.nutrients += 1] *)
Definition add_nutrient (s : State) : State :=
  {| deck := deck s; hand := hand s; habitats := habitats s;
     nutrients := nutrients s + 1; spores := spores s; score := score s |}.

(** [case 'PLAY'] of [reducer]. *)
Definition play (state : State) (cardId : Z) (hab : Habitat) : State :=
  match List.find (fun c => id c =? cardId) (hand state) with
  | None => state
  | Some card =>
      if negb (bool_decide (habitat card = hab))
         || (nutrients state <? cost card)
         || (5 <=? Z.of_nat (length (get (habitats state) hab)))
      then state
      else
        let newState := play_update state card cardId hab in
        let newState :=
          if bool_decide (power card = Some GainSpore)
          then add_spore newState else newState in
        let newState :=
          if bool_decide (power card = Some GainNutrient)
          then add_nutrient newState else newState in
        if bool_decide (power card = Some DrawCard)
        then draw newState   (* reducer(newState, { type: 'DRAW' }) *)
        else newState
  end.

(** [reducer].  Its one recursive call, [reducer(newState, {type: 'DRAW'})],
    enters [case 'DRAW'] and returns from there, so that case is the separate
    function [draw].  The [default] branch is not reached by a value of type
    [Action]. *)
Definition reducer (state : State) (action : Action) : State :=
  match action with
  | DRAW => draw state
  | PLAY cardId hab => play state cardId hab
  | ACTIVATE payload =>
      {| deck := deck state;
         hand := hand state;
         habitats := habitats state;
         nutrients := nutrients state + Z.of_nat (length (get (habitats state) payload));
         spores := spores state;
         score := score state |}
  end.

(** [useReducer]: the state after dispatching [actions] in order. *)
Definition run (state : State) (actions : list Action) : State :=
  foldl reducer state actions.

(** States the session can be in. *)
Inductive reachable (random : nat -> Q) : State -> Prop :=
| reachable_init : reachable random (initialState random)
| reachable_step s a : reachable random s -> reachable random (reducer s a).

End Engine.

(** ** The drag tracker of the [App] component *)

Module Tracker.
Import Cards Engine.

(** What [getBoundingClientRect()] returns, as far as [onMouseUp] reads it. *)
Record DOMRect := {
  rect_left : Q;
  rect_right : Q;
  rect_top : Q;
  rect_bottom : Q
}.

(** [dragging.current] *)
Record Drag := { card : option Mushroom; x : Q; y : Q }.

(** The refs and state hooks the three pointer handlers write. *)
Record UI := {
  dragging : Drag;
  dragTick : Z;
  draggingHab : option Habitat
}.

Inductive Sound := click | playSnd | drawSnd.

(** What a handler does besides writing [UI]: [dispatch(a)], [playSound(n)]. *)
Inductive Effect :=
| Dispatch (a : Action)
| PlaySound (n : Sound).

(** [a < b] on numbers. *)
Definition Qltb (a b : Q) : bool :=
  match Qcompare a b with
  | Lt => true
  | _ => false
  end.

(** [x > r.left && x < r.right && y > r.top && y < r.bottom] *)
Definition inside (r : DOMRect) (x y : Q) : bool :=
  Qltb (rect_left r) x && Qltb x (rect_right r)
  && Qltb (rect_top r) y && Qltb y (rect_bottom r).

(** [startDrag(e, card)], with [e.clientX], [e.clientY]. *)
Definition startDrag (clientX clientY : Q) (c : Mushroom) (ui : UI) : UI * list Effect :=
  ({| dragging := {| card := Some c; x := clientX; y := clientY |};
      dragTick := dragTick ui + 1;
      draggingHab := Some (habitat c) |},
   [PlaySound click]).

(** [onMouseMove(e)] *)
Definition onMouseMove (clientX clientY : Q) (ui : UI) : UI * list Effect :=
  match card (dragging ui) with
  | Some c =>
      ({| dragging := {| card := Some c; x := clientX; y := clientY |};
          dragTick := dragTick ui + 1;
          draggingHab := draggingHab ui |}, [])
  | None => (ui, [])
  end.

(** The [for (const hab of [...])] loop of [onMouseUp] over the habitats
    still to visit; returns the effects and the final value of [played]. *)
Fixpoint scan (zones : list Habitat) (habitatRefs : PerHabitat (option DOMRect))
         (cardId : Z) (x y : Q) : list Effect * bool :=
  match zones with
  | [] => ([], false)
  | hab :: rest =>
      match get habitatRefs hab with
      | Some r =>
          if inside r x y
          then ([Dispatch (PLAY cardId hab); PlaySound playSnd], true)   (* break *)
          else scan rest habitatRefs cardId x y
      | None => scan rest habitatRefs cardId x y
      end
  end.

(** [onMouseUp()]; [habitatRefs] maps a habitat to the rectangle of its
    mounted element, [None] for a [null] ref. *)
Definition onMouseUp (habitatRefs : PerHabitat (option DOMRect)) (ui : UI)
  : UI * list Effect :=
  match card (dragging ui) with
  | None => (ui, [])
  | Some c =>
      let '(effects, played) :=
        scan [Forest; Log; Soil] habitatRefs (id c) (x (dragging ui)) (y (dragging ui)) in
      let effects := if played then effects else effects ++ [PlaySound click] in
      ({| dragging := {| card := None; x := x (dragging ui); y := y (dragging ui) |};
          dragTick := dragTick ui + 1;
          draggingHab := None |},
       effects)
  end.

(** The actions a handler handed to [dispatch], in order. *)
Fixpoint dispatched (effects : list Effect) : list Action :=
  match effects with
  | [] => []
  | Dispatch a :: rest => a :: dispatched rest
  | PlaySound _ :: rest => dispatched rest
  end.

(** The protocol state the refs encode. *)
Inductive Mode :=
| Idle
| Dragging (c : Mushroom) (x y : Q).

Definition mode (ui : UI) : Mode :=
  match card (dragging ui) with
  | None => Idle
  | Some c => Dragging c (x (dragging ui)) (y (dragging ui))
  end.

End Tracker.

(** ** Vocabulary of the specification

    Predicates and reference functions worded after the specification, to
    state the properties of the code above. *)

Module Spec.
Import Cards Engine.

(** [Math.random()] returns a value in [[0, 1)]. *)
Definition random_ok (random : nat -> Q) : Prop :=
  forall k, (0 <= random k)%Q /\ (random k < 1)%Q.

(** Card instances for the templates [bases], numbered from [n] on. *)
Fixpoint instances (bases : list Base) (n : Z) : list Mushroom :=
  match bases with
  | [] => []
  | b :: bases' => with_id b n :: instances bases' (n + 1)
  end.

(** The catalog replicated six times, unshuffled. *)
Definition catalog_copies : list Base := concat (replicate 6 BASE_CARDS).

(** How many cards of [cards] were copied from template [b]. *)
Definition copies_of (b : Base) (cards : list Mushroom) : nat :=
  length (filter (fun c => template c = b) cards).

(** Every card of the session: deck, hand and the three habitats. *)
Definition all_cards (s : State) : list Mushroom :=
  deck s ++ hand s ++ forest (habitats s) ++ log (habitats s) ++ soil (habitats s).

(** Ids are unique across the whole game session. *)
Definition unique_ids (s : State) : Prop := NoDup (id <$> all_cards s).

(** Conservation: resources are non-negative, no habitat holds more than 5. *)
Definition conserved (s : State) : Prop :=
  0 <= nutrients s /\ 0 <= spores s
  /\ forall h, (length (get (habitats s) h) <= 5)%nat.

(** The card [find] returns for [cardId]: the first one in the hand with
    that id. *)
Definition found (s : State) (cardId : Z) : option Mushroom :=
  List.find (fun c => id c =? cardId) (hand s).

(** The four validations of Play, all holding, for the found card [c]. *)
Definition valid_play (s : State) (cardId : Z) (h : Habitat) (c : Mushroom) : Prop :=
  found s cardId = Some c
  /\ habitat c = h
  /\ cost c <= nutrients s
  /\ (length (get (habitats s) h) < 5)%nat.

(** Removal by id from the hand. *)
Fixpoint remove_by_id (cardId : Z) (cards : list Mushroom) : list Mushroom :=
  match cards with
  | [] => []
  | c :: cards' =>
      if decide (id c = cardId) then remove_by_id cardId cards'
      else c :: remove_by_id cardId cards'
  end.

(** Play with the power left pending: the validations, then "remove the
    card from hand; append it to the target habitat sequence; subtract
    card.cost from nutrients; add card.points to score", and nothing else. *)
Definition play_pending (s : State) (cardId : Z) (h : Habitat) : State :=
  match found s cardId with
  | Some c =>
      if decide (habitat c = h /\ cost c <= nutrients s
                 /\ (length (get (habitats s) h) < 5)%nat)
      then {| deck := deck s;
              hand := remove_by_id cardId (hand s);
              habitats := put (habitats s) h (get (habitats s) h ++ [c]);
              nutrients := nutrients s - cost c;
              spores := spores s;
              score := score s + points c |}
      else s
  | None => s
  end.




(** The drop zone of [h] contains the point: its element is mounted and the
    point lies strictly inside its rectangle. *)
Definition zone_contains (habitatRefs : PerHabitat (option Tracker.DOMRect))
           (h : Habitat) (x y : Q) : Prop :=
  exists r, get habitatRefs h = Some r
    /\ (Tracker.rect_left r < x)%Q /\ (x < Tracker.rect_right r)%Q
    /\ (Tracker.rect_top r < y)%Q /\ (y < Tracker.rect_bottom r)%Q.

(** The fixed evaluation order of the drop zones. *)
Definition zone_order : list Habitat := [Forest; Log; Soil].

(** [h] is the first zone, in evaluation order, that contains the point. *)
Definition first_zone (habitatRefs : PerHabitat (option Tracker.DOMRect))
           (h : Habitat) (x y : Q) : Prop :=
  exists before after, zone_order = before ++ h :: after
    /\ zone_contains habitatRefs h x y
    /\ forall h', h' ∈ before -> ~ zone_contains habitatRefs h' x y.

End Spec.

(** ** Sample data *)

Module Samples.
Import Cards Engine.

(** A stream of random values; any one in [[0, 1)] would do. *)
Definition third : nat -> Q := fun _ => (1 # 3)%Q.

(** One instance of each of the first four catalog entries. *)
Definition agaric : Mushroom :=
  {| id := 0; name := "Fly Agaric"; habitat := Forest; cost := 2; points := 2;
     power := Some GainSpore; art := "images/mushrooms/agaric.jpg" |}.
Definition shiitake : Mushroom :=
  {| id := 1; name := "Shiitake"; habitat := Log; cost := 1; points := 3;
     power := Some GainNutrient; art := "images/mushrooms/shiitake.jpg" |}.
Definition lionsmane : Mushroom :=
  {| id := 2; name := "Lion's Mane"; habitat := Forest; cost := 2; points := 4;
     power := Some DrawCard; art := "images/mushrooms/lionsmane.jpg" |}.
Definition morel : Mushroom :=
  {| id := 3; name := "Morel"; habitat := Soil; cost := 3; points := 3;
     power := Some GainSpore; art := "images/mushrooms/morel.jpg" |}.

(** One nutrient left, a cost-2 card in hand. *)
Definition poor : State :=
  {| deck := [morel]; hand := [agaric];
     habitats := {| forest := []; log := []; soil := [] |};
     nutrients := 1; spores := 0; score := 0 |}.

(** A draw-power card in hand over a deck of [cards]. *)
Definition lion_in_hand (cards : list Mushroom) : State :=
  {| deck := cards; hand := [agaric; lionsmane];
     habitats := {| forest := []; log := [shiitake]; soil := [] |};
     nutrients := 8; spores := 0; score := 0 |}.

(** Fly Agaric held at the point (5, 5). *)
Definition held : Tracker.UI :=
  {| Tracker.dragging := {| Tracker.card := Some agaric; Tracker.x := 5; Tracker.y := 5 |};
     Tracker.dragTick := 1;
     Tracker.draggingHab := Some Forest |}.

Definition square (a b : Q) : Tracker.DOMRect :=
  {| Tracker.rect_left := a; Tracker.rect_right := b;
     Tracker.rect_top := a; Tracker.rect_bottom := b |}.

(** Forest not mounted; Log and Soil overlapping around (5, 5). *)
Definition overlapping : PerHabitat (option Tracker.DOMRect) :=
  {| forest := None; log := Some (square 0 10); soil := Some (square 4 6) |}.

(** Three zones away from (5, 5), Forest touching it with its border. *)
Definition elsewhere : PerHabitat (option Tracker.DOMRect) :=
  {| forest := Some (square 5 10); log := Some (square 20 30);
     soil := Some (square 40 50) |}.

End Samples.

(** ** What the component computes while rendering *)

Module View.
Import Cards Engine.

(** The figure after "Score:": [state.score + state.spores * 2 + state.nutrients]. *)
Definition displayedScore (state : State) : Z :=
  score state + spores state * 2 + nutrients state.

(** [isTargetSlot] for slot [i] of habitat [hab], with [m = state.habitats[hab][i]],
    [nextIndex = state.habitats[hab].length] and [draggedCard = dragging.current.card]. *)
Definition isTargetSlot (state : State) (dragging : Tracker.Drag) (hab : Habitat)
           (i : nat) : bool :=
  let m := get (habitats state) hab !! i in
  let nextIndex := length (get (habitats state) hab) in
  match m, Tracker.card dragging with
  | None, Some draggedCard =>
      bool_decide (habitat draggedCard = hab)
      && (i =? nextIndex)%nat
      && (Z.of_nat (length (get (habitats state) hab)) <? 5)
      && (cost draggedCard <=? nutrients state)
  | _, _ => false
  end.

(** What one slot shows: the played card [m], or an empty slot that may
    carry the [slot-target] class. *)
Inductive Slot :=
| Played (m : Mushroom)
| Empty (target : bool).

(** [Array.from({ length: 5 }, (_, i) => ...)] for habitat [hab]. *)
Definition slots (state : State) (dragging : Tracker.Drag) (hab : Habitat) : list Slot :=
  (fun i =>
     match get (habitats state) hab !! i with
     | Some m => Played m
     | None => Empty (isTargetSlot state dragging hab i)
     end) <$> seq 0 5.

(** The hand cards left visible: the one whose id is the dragged card's gets
    [visibility: hidden]. *)
Definition hidden (dragging : Tracker.Drag) (c : Mushroom) : bool :=
  match Tracker.card dragging with
  | Some d => id d =? id c
  | None => false
  end.

(** [getDescription(card)] *)
Definition getDescription (c : Mushroom) : string :=
  if decide (name c = "Fly Agaric") then
    "A bright red mushroom with white spots, historically associated with folklore and magic. It thrives in shaded forest floors."
  else if decide (name c = "Shiitake") then
    "A meaty log-loving mushroom, prized for its savory flavor and hearty texture."
  else if decide (name c = "Lion's Mane") then
    "A shaggy, cascading fungus resembling a lion's mane; known for its unique texture and neurological lore."
  else if decide (name c = "Morel") then
    "A highly sought-after speckled mushroom that grows in moist soil and has an earthy, nutty flavor."
  else if decide (name c = "Oyster") then
    "A delicate, fan-shaped mushroom commonly found on decaying logs and rich in umami."
  else if decide (name c = "Reishi") then
    "A hardy forest mushroom with a glossy, lacquered cap; traditionally used in wellness tonics."
  else "A mysterious mushroom with curious properties.".


(** Where the expanded card goes, [(left, top)], from the hovered card's
    rectangle and [window.innerWidth]. *)
Definition portalPosition (rectLeft rectWidth rectTop innerWidth : Q) : Q * Q :=
  let panelWidth := 320%Q in
  let panelHalfWidth := (panelWidth / 2)%Q in
  let left := (rectLeft + rectWidth / 2)%Q in
  let top := Qmax 8 (rectTop - 180) in
  let minLeft := (panelHalfWidth + 8)%Q in
  let maxLeft := (innerWidth - panelHalfWidth - 8)%Q in
  let left := Qmax minLeft (Qmin left maxLeft) in
  (left, top).

End View.

(** ** Pointer events reaching the component *)

Module Gesture.
Import Cards Engine Tracker.

(** [onMouseDown] on the hand card [c]; [mousemove] and [mouseup] on the
    window, the latter with the drop zones as they lie at that moment. *)
Inductive PointerEvent :=
| MouseDown (clientX clientY : Q) (c : Mushroom)
| MouseMove (clientX clientY : Q)
| MouseUp (habitatRefs : PerHabitat (option DOMRect)).

Definition handle (ui : UI) (e : PointerEvent) : UI * list Effect :=
  match e with
  | MouseDown clientX clientY c => startDrag clientX clientY c ui
  | MouseMove clientX clientY => onMouseMove clientX clientY ui
  | MouseUp habitatRefs => onMouseUp habitatRefs ui
  end.

(** The handlers run one event after the other; the effects accumulate. *)
Fixpoint handle_all (ui : UI) (events : list PointerEvent) : UI * list Effect :=
  match events with
  | [] => (ui, [])
  | e :: events' =>
      let '(ui1, effects1) := handle ui e in
      let '(ui2, effects2) := handle_all ui1 events' in
      (ui2, effects1 ++ effects2)
  end.

(** The cards grabbed by the [MouseDown] events of a trace. *)
Fixpoint grabbed (events : list PointerEvent) : list Mushroom :=
  match events with
  | [] => []
  | MouseDown _ _ c :: events' => c :: grabbed events'
  | _ :: events' => grabbed events'
  end.

(** The card held, if any. *)
Definition holding (ui : UI) : list Mushroom :=
  match card (dragging ui) with
  | Some c => [c]
  | None => []
  end.

End Gesture.

(** ** Bookkeeping over the cards of a state *)

Module Ledger.
Import Cards Engine.

(** The cards on the board. *)
Definition played (s : State) : list Mushroom :=
  forest (habitats s) ++ log (habitats s) ++ soil (habitats s).

(** The sum of [f] over [cards]. *)
Fixpoint total (f : Mushroom -> Z) (cards : list Mushroom) : Z :=
  match cards with
  | [] => 0
  | c :: cards' => f c + total f cards'
  end.

(** How many of [cards] carry the power [p]. *)
Definition with_power (p : Power) (cards : list Mushroom) : Z :=
  Z.of_nat (length (filter (fun c => power c = Some p) cards)).

(** The most points a single catalog card of habitat [h] scores. *)
Definition best_points (h : Habitat) : Z :=
  foldr Z.max 0 (base_points <$> filter (fun b => base_habitat b = h) BASE_CARDS).

(** A trace with no Activate in it. *)
Definition no_activate (actions : list Action) : Prop :=
  Forall (fun a => match a with ACTIVATE _ => False | _ => True end) actions.

(** The random value that makes [Math.floor(r * (i + 1))] pick [j]. *)
Definition pick (j i : nat) : Q := (Z.of_nat j # Pos.of_nat (i + 1))%Q.

End Ledger.

(** ** More sample data *)

Module MoreSamples.
Import Cards Engine.

(** The Lion's Mane instance with id 14, the front card of the deck that
    [Samples.third] shuffles. *)
Definition lionsmane14 : Mushroom :=
  {| id := 14; name := "Lion's Mane"; habitat := Forest; cost := 2; points := 4;
     power := Some DrawCard; art := "images/mushrooms/lionsmane.jpg" |}.

(** Fly Agaric held over a board with two cards in Forest. *)
Definition two_in_forest : State :=
  {| deck := [Samples.morel]; hand := [Samples.agaric; Samples.shiitake];
     habitats := {| forest := [lionsmane14; Samples.lionsmane]; log := []; soil := [] |};
     nutrients := 3; spores := 0; score := 8 |}.

End MoreSamples.

(** ** JavaScript numbers

    A JavaScript number is a double.  The numbers of the game are integers,
    and every integer up to [2 ^ 53] in absolute value is a double; past that
    the doubles thin out, and a sum is rounded to the nearest of them, ties
    to the even significand.  Values past the range of doubles ([2 ^ 1024])
    are outside this model. *)

Module Float64.

(** The double nearest to the integer [z]. *)
Definition round_int (z : Z) : Z :=
  let a := Z.abs z in
  if a <=? 2 ^ 53 then z
  else
    let sh := Z.log2 a - 52 in
    let q := a / 2 ^ sh in
    let r := a mod 2 ^ sh in
    let half := 2 ^ (sh - 1) in
    let q' := if r <? half then q
              else if half <? r then q + 1
              else if Z.even q then q else q + 1 in
    Z.sgn z * (q' * 2 ^ sh).

(** [a + b], [a - b] and [a * b] on integer-valued numbers. *)
Definition add (a b : Z) : Z := round_int (a + b).
Definition sub (a b : Z) : Z := round_int (a - b).
Definition mul (a b : Z) : Z := round_int (a * b).

(** The [e] with [2 ^ e <= x < 2 ^ (e + 1)], for [0 < x]. *)
Definition exponent (x : Q) : Z :=
  let e := Z.log2 (Qnum x) - Z.log2 (Z.pos (Qden x)) in
  if Qle_bool (2 ^ e) x then e else e - 1.

(** The double nearest to the rational [0 < x]: [x] is scaled so that its
    53-bit significand is the integer part, rounded to the nearest integer,
    ties to even, and scaled back; below [2 ^ -1022] the spacing stays
    [2 ^ -1074]. *)
Definition round_pos (x : Q) : Q :=
  let ulp := (2 ^ Z.max (exponent x - 52) (-1074))%Q in
  let scaled := (x / ulp)%Q in
  let f := Qfloor scaled in
  let m := match Qcompare (scaled - inject_Z f) (1 # 2) with
           | Lt => f
           | Gt => f + 1
           | Eq => if Z.even f then f else f + 1
           end in
  (inject_Z m * ulp)%Q.

(** The double nearest to [x]. *)
Definition round_to_double (x : Q) : Q :=
  match Qcompare 0 x with
  | Lt => round_pos x
  | Eq => x
  | Gt => Qopp (round_pos (Qopp x))
  end.

End Float64.

(** ** The program as the JavaScript runtime computes it

    The same functions as in [Cards] and [Engine], with every sum,
    difference and product rounded as a double is.  The two agree as long as
    the numbers stay in the range where doubles count exactly. *)

Module Runtime.
Import Cards Engine.

(** [Math.floor(Math.random() * (i + 1))], the product rounded. *)
Definition random_index (r : Q) (i : nat) : nat :=
  Z.to_nat (Qfloor (Float64.round_to_double (r * inject_Z (Z.of_nat (i + 1))))).

(** [BASE_CARDS.forEach(c => deck.push({ ...c, id: idCounter++ }))] *)
Definition push_all (st : list Mushroom * Z) : list Mushroom * Z :=
  foldl (fun '(deck, idCounter) c =>
           (deck ++ [with_id c idCounter], Float64.add idCounter 1))
        st BASE_CARDS.

Fixpoint fill (rounds : nat) (st : list Mushroom * Z) : list Mushroom * Z :=
  match rounds with
  | O => st
  | S rounds' => fill rounds' (push_all st)
  end.

Fixpoint shuffle (random : nat -> Q) (calls : nat) (i : nat)
         (deck : list Mushroom) : list Mushroom :=
  match i with
  | O => deck
  | S i' =>
      let j := random_index (random calls) i in
      shuffle random (S calls) i' (swap deck i j)
  end.

Definition createDeck (idCounter : Z) (random : nat -> Q) : list Mushroom * Z :=
  let '(deck, idCounter') := fill 6 ([], idCounter) in
  (shuffle random 0 (length deck - 1)%nat deck, idCounter').

Definition initialState (random : nat -> Q) : State :=
  {| deck := fst (createDeck 0 random);
     hand := [];
     habitats := {| forest := []; log := []; soil := [] |};
     nutrients := 8;
     spores := 0;
     score := 0 |}.

(** [newState] as first built in [case 'PLAY']. *)
Definition play_update (state : State) (card : Mushroom) (cardId : Z)
           (habitat : Habitat) : State :=
  {| deck := deck state;
     hand := List.filter (fun c => negb (id c =? cardId)) (hand state);
     habitats := put (habitats state) habitat (get (habitats state) habitat ++ [card]);
     nutrients := Float64.sub (nutrients state) (cost card);
     spores := spores state;
     score := Float64.add (score state) (points card) |}.

(** [newState.spores += 1] *)
Definition add_spore (s : State) : State :=
  {| deck := deck s; hand := hand s; habitats := habitats s;
     nutrients := nutrients s; spores := Float64.add (spores s) 1; score := score s |}.

(** [newState.nutrients += 1] *)
Definition add_nutrient (s : State) : State :=
  {| deck := deck s; hand := hand s; habitats := habitats s;
     nutrients := Float64.add (nutrients s) 1; spores := spores s; score := score s |}.

(** [newState] once the two increments have been looked at. *)
Definition with_gains (card : Mushroom) (newState : State) : State :=
  let newState :=
    if bool_decide (power card = Some GainSpore)
    then add_spore newState else newState in
  if bool_decide (power card = Some GainNutrient)
  then add_nutrient newState else newState.

(** [case 'PLAY'] of [reducer]. *)
Definition play (state : State) (cardId : Z) (hab : Habitat) : State :=
  match List.find (fun c => id c =? cardId) (hand state) with
  | None => state
  | Some card =>
      if negb (bool_decide (habitat card = hab))
         || (nutrients state <? cost card)
         || (5 <=? Z.of_nat (length (get (habitats state) hab)))
      then state
      else
        let newState := with_gains card (play_update state card cardId hab) in
        if bool_decide (power card = Some DrawCard)
        then draw newState   (* reducer(newState, { type: 'DRAW' }) *)
        else newState
  end.

(** [reducer] *)
Definition reducer (state : State) (action : Action) : State :=
  match action with
  | DRAW => draw state
  | PLAY cardId hab => play state cardId hab
  | ACTIVATE payload =>
      {| deck := deck state;
         hand := hand state;
         habitats := habitats state;
         nutrients :=
           Float64.add (nutrients state) (Z.of_nat (length (get (habitats state) payload)));
         spores := spores state;
         score := score state |}
  end.

Definition run (state : State) (actions : list Action) : State :=
  foldl reducer state actions.

(** [state.score + state.spores * 2 + state.nutrients] *)
Definition displayedScore (state : State) : Z :=
  Float64.add (Float64.add (score state) (Float64.mul (spores state) 2))
              (nutrients state).

(** The guard of [case 'PLAY']: what makes it return [state]. *)
Definition rejects (state : State) (cardId : Z) (hab : Habitat) : Prop :=
  match List.find (fun c => id c =? cardId) (hand state) with
  | None => True
  | Some card =>
      habitat card <> hab \/ nutrients state < cost card
      \/ (5 <= length (get (habitats state) hab))%nat
  end.



End Runtime.

(** ** The range in which the numbers of a state are exact *)

Module Bounds.
Import Cards Engine.

Definition safe (z : Z) : Prop := - 2 ^ 52 < z < 2 ^ 52.

(** Every number an action can read from the state is well inside the
    range where doubles count exactly. *)
Definition small (s : State) : Prop :=
  safe (nutrients s) /\ safe (spores s) /\ safe (score s)
  /\ (forall c, c ∈ hand s -> safe (cost c) /\ safe (points c))
  /\ forall h, Z.of_nat (length (get (habitats s) h)) < 2 ^ 52.

(** The nutrients stayed below [2 ^ 52] all along a replay. *)
Definition nutrients_stay_exact (s : State) (actions : list Action) : Prop :=
  forall k, nutrients (Runtime.run s (take k actions)) < 2 ^ 52.

(** A random value with six binary digits. *)
Definition six_bits (r : Q) : Prop :=
  exists m : Z, 0 <= m < 64 /\ r = (m # 64)%Q.

(** The six-digit value that makes the shuffle pick [j] at index [i]:
    the least multiple of 1/64 that is at least [j / (i + 1)]. *)
Definition pick64 (j i : nat) : Q :=
  ((Z.of_nat (j * 64 + i) / Z.of_nat (i + 1)) # 64)%Q.


End Bounds.

(** * Properties of the game engine *)

Module EngineFacts.
Import Cards Engine Spec.

(** The nested call of [reducer] on a Draw action is the Draw case. *)
Lemma reducer_DRAW (s : State) : reducer s DRAW = draw s.
Proof. reflexivity. Qed.

Lemma state_eta (s : State) :
  {| deck := deck s; hand := hand s; habitats := habitats s;
     nutrients := nutrients s; spores := spores s; score := score s |} = s.
Proof. now destruct s. Qed.

Lemma get_put_eq {A} (r : PerHabitat A) h v : get (put r h v) h = v.
Proof. now destruct h. Qed.

Lemma get_put_ne {A} (r : PerHabitat A) h h' v :
  h' <> h -> get (put r h v) h' = get r h'.
Proof. destruct h, h'; simpl; congruence. Qed.

(** The source's [filter] is removal by id. *)
Lemma filter_remove_by_id cardId (cards : list Mushroom) :
  List.filter (fun c => negb (id c =? cardId)) cards = remove_by_id cardId cards.
Proof.
  induction cards as [|c cards IH]; simpl; [reflexivity|].
  destruct (decide (id c = cardId)) as [E|E].
  - apply Z.eqb_eq in E. now rewrite E.
  - apply Z.eqb_neq in E. rewrite E. simpl. now f_equal.
Qed.

Lemma remove_by_id_gone cardId (cards : list Mushroom) :
  cardId ∉ (id <$> remove_by_id cardId cards).
Proof.
  induction cards as [|c cards IH]; simpl.
  - apply not_elem_of_nil.
  - destruct (decide (id c = cardId)); [assumption|].
    rewrite fmap_cons, not_elem_of_cons. split; [congruence|assumption].
Qed.

Lemma remove_by_id_absent cardId (cards : list Mushroom) :
  cardId ∉ (id <$> cards) -> remove_by_id cardId cards = cards.
Proof.
  induction cards as [|c cards IH]; [reflexivity|].
  rewrite fmap_cons, not_elem_of_cons. intros [Hne Hrest]. simpl.
  destruct (decide (id c = cardId)); [congruence|].
  f_equal. now apply IH.
Qed.

(** Where [find] stops: the card it returns is in the hand, carries the id,
    and no earlier card does. *)
Lemma found_split s cardId c :
  found s cardId = Some c ->
  id c = cardId /\
  exists l1 l2, hand s = l1 ++ c :: l2 /\ cardId ∉ (id <$> l1).
Proof.
  unfold found. generalize (hand s). intros l.
  induction l as [|d l IH]; simpl; [discriminate|].
  destruct (id d =? cardId) eqn:E.
  - intros [= ->]. apply Z.eqb_eq in E. split; [assumption|].
    exists [], l. split; [reflexivity|apply not_elem_of_nil].
  - intros H. destruct (IH H) as (Hid & l1 & l2 & -> & Hl1).
    split; [assumption|]. exists (d :: l1), l2. split; [reflexivity|].
    rewrite fmap_cons, not_elem_of_cons. apply Z.eqb_neq in E. split; congruence.
Qed.

Lemma found_none s cardId :
  cardId ∉ (id <$> hand s) -> found s cardId = None.
Proof.
  unfold found. generalize (hand s). intros l.
  induction l as [|d l IH]; [reflexivity|].
  rewrite fmap_cons, not_elem_of_cons. intros [Hne Hrest]. simpl.
  assert ((id d =? cardId) = false) as -> by (apply Z.eqb_neq; congruence).
  now apply IH.
Qed.

(** With unique ids, removal by id takes out exactly the found card. *)
Lemma remove_found s cardId c :
  found s cardId = Some c -> NoDup (id <$> hand s) ->
  exists l1 l2, hand s = l1 ++ c :: l2 /\ remove_by_id cardId (hand s) = l1 ++ l2.
Proof.
  intros Hf Hnd. destruct (found_split _ _ _ Hf) as (Hid & l1 & l2 & Hh & Hl1).
  exists l1, l2. split; [assumption|].
  rewrite Hh in Hnd |- *. clear Hh Hf.
  rewrite fmap_app, fmap_cons in Hnd.
  apply NoDup_app in Hnd as (_ & _ & Hnd2).
  apply NoDup_cons in Hnd2 as [Hc _]. rewrite Hid in Hc.
  induction l1 as [|d l1 IH]; simpl.
  - destruct (decide (id c = cardId)); [|congruence].
    now apply remove_by_id_absent.
  - rewrite fmap_cons, not_elem_of_cons in Hl1. destruct Hl1 as [Hne Hl1].
    destruct (decide (id d = cardId)); [congruence|].
    f_equal. now apply IH.
Qed.

(** What [case 'PLAY'] returns once the validations hold. *)
Lemma play_valid s cardId h c :
  valid_play s cardId h c ->
  play s cardId h =
    let s1 := play_update s c cardId h in
    match power c with
    | Some GainSpore => add_spore s1
    | Some GainNutrient => add_nutrient s1
    | Some DrawCard => draw s1
    | None => s1
    end.
Proof.
  intros (Hf & Hh & Hc & Hl). unfold play. unfold found in Hf. rewrite Hf.
  rewrite bool_decide_true by assumption.
  assert ((nutrients s <? cost c) = false) as -> by (apply Z.ltb_ge; lia).
  assert ((5 <=? Z.of_nat (length (get (habitats s) h))) = false) as ->
    by (apply Z.leb_gt; lia).
  simpl. destruct (power c) as [[]|]; reflexivity.
Qed.

Lemma play_pending_valid s cardId h c :
  valid_play s cardId h c ->
  play_pending s cardId h = play_update s c cardId h.
Proof.
  intros (Hf & Hh & Hc & Hl). unfold play_pending. rewrite Hf.
  rewrite decide_True by auto.
  unfold play_update. now rewrite filter_remove_by_id.
Qed.

(** *** Draw *)

(** C5.  Draw on a non-empty deck moves exactly the front card of the deck
    to the end of the hand and changes no other field; on an empty deck it
    returns the state as it is. *)
Theorem draw_moves_front_card :
  (forall top rest hand0 board n sp sc,
      reducer {| deck := top :: rest; hand := hand0; habitats := board;
                 nutrients := n; spores := sp; score := sc |} DRAW
      = {| deck := rest; hand := hand0 ++ [top]; habitats := board;
           nutrients := n; spores := sp; score := sc |})
  /\ (forall s, length (deck s) <> 0%nat ->
        S (length (deck (reducer s DRAW))) = length (deck s)
        /\ length (hand (reducer s DRAW)) = S (length (hand s))
        /\ head (deck s) = last (hand (reducer s DRAW)))
  /\ (forall s, deck s = [] -> reducer s DRAW = s).
Proof.
  split; [|split].
  - reflexivity.
  - intros s Hne. destruct s as [d hd b n sp sc]; simpl in *.
    destruct d as [|top rest]; [contradiction|]. simpl.
    rewrite length_app, last_snoc. simpl. repeat split; lia.
  - intros s He. simpl. unfold draw. now rewrite He.
Qed.

Lemma draw_moves_front_card_witness :
  length (deck (Samples.lion_in_hand [Samples.morel])) <> 0%nat
  /\ reducer (Samples.lion_in_hand []) DRAW = Samples.lion_in_hand []
  /\ length (hand (reducer (Samples.lion_in_hand [Samples.morel]) DRAW)) = 3%nat.
Proof.
  split; [discriminate|]. split.
  - apply (proj2 (proj2 draw_moves_front_card)). reflexivity.
  - apply (proj1 (proj2 draw_moves_front_card)). discriminate.
Defined.

(** *** Activate *)

Lemma run_snoc s actions a : run s (actions ++ [a]) = reducer (run s actions) a.
Proof. unfold run. now rewrite foldl_snoc. Qed.

(** *** Play *)

(** C1.  A Play whose card id is not in the hand, or whose found card
    belongs to another habitat or costs more than the nutrients at hand, or
    whose target habitat already holds 5 cards or more, returns the state it
    was given. *)
Theorem play_rejected_unchanged (s : State) (cardId : Z) (h : Habitat) :
  (cardId ∉ id <$> hand s)
  \/ (exists c, found s cardId = Some c /\ habitat c <> h)
  \/ (exists c, found s cardId = Some c /\ nutrients s < cost c)
  \/ (5 <= length (get (habitats s) h))%nat ->
  reducer s (PLAY cardId h) = s.
Proof.
  intros H. simpl. unfold play. fold (found s cardId).
  destruct H as [H|[(c & Hf & H)|[(c & Hf & H)|H]]].
  - now rewrite found_none.
  - rewrite Hf. now rewrite bool_decide_false.
  - rewrite Hf. apply Z.ltb_lt in H. rewrite H.
    now rewrite orb_true_r.
  - destruct (found s cardId); [|reflexivity].
    assert ((5 <=? Z.of_nat (length (get (habitats s) h))) = true) as ->
      by (apply Z.leb_le; lia).
    now rewrite orb_true_r.
Qed.

(** Scenario B: one nutrient, a card of cost 2. *)
Lemma play_rejected_unchanged_witness :
  reducer Samples.poor (PLAY 0 Forest) = Samples.poor.
Proof.
  apply play_rejected_unchanged.
  right. right. left. exists Samples.agaric.
  split; [reflexivity|]. simpl. lia.
Defined.



(** C4.  A valid Play of a DrawCard-power card is, as one transition, the
    play with the power left pending followed by a Draw.  With a non-empty
    deck and unique ids in the hand, the hand keeps its size (one card
    played, one drawn) and the deck loses its front card. *)
Theorem play_drawcard_is_play_then_draw (s : State) (cardId : Z) (h : Habitat)
        (c : Mushroom) :
  valid_play s cardId h c ->
  power c = Some DrawCard ->
  reducer s (PLAY cardId h) = reducer (play_pending s cardId h) DRAW
  /\ (deck s <> [] -> NoDup (id <$> hand s) ->
      length (hand (reducer s (PLAY cardId h))) = length (hand s)
      /\ S (length (deck (reducer s (PLAY cardId h)))) = length (deck s)
      /\ deck (reducer s (PLAY cardId h)) = drop 1 (deck s)
      /\ head (deck s) = last (hand (reducer s (PLAY cardId h)))).
Proof.
  intros Hv Hp.
  assert (reducer s (PLAY cardId h) = reducer (play_pending s cardId h) DRAW) as E.
  { rewrite (play_pending_valid _ _ _ _ Hv). simpl.
    rewrite (play_valid _ _ _ _ Hv). simpl. now rewrite Hp. }
  split; [exact E|].
  intros Hd Hnd. rewrite E, (play_pending_valid _ _ _ _ Hv).
  destruct Hv as (Hf & _).
  destruct (remove_found _ _ _ Hf Hnd) as (l1 & l2 & Hh & Hr).
  simpl. unfold draw. simpl.
  destruct (deck s) as [|top rest] eqn:Ed; [contradiction|]. simpl.
  rewrite filter_remove_by_id, Hr, Hh, last_snoc.
  rewrite !length_app, drop_0. simpl. repeat split; lia.
Qed.

Lemma play_drawcard_is_play_then_draw_witness :
  length (hand (reducer (Samples.lion_in_hand [Samples.morel]) (PLAY 2 Forest))) = 2%nat
  /\ reducer (Samples.lion_in_hand [Samples.morel]) (PLAY 2 Forest)
     = reducer (play_pending (Samples.lion_in_hand [Samples.morel]) 2 Forest) DRAW.
Proof.
  assert (valid_play (Samples.lion_in_hand [Samples.morel]) 2 Forest Samples.lionsmane) as Hv.
  { repeat split; simpl; lia. }
  pose proof (play_drawcard_is_play_then_draw _ _ _ _ Hv eq_refl) as [E Hsz].
  split; [|exact E].
  apply Hsz; [discriminate|].
  apply (bool_decide_unpack (NoDup (id <$> hand (Samples.lion_in_hand [Samples.morel])))).
  reflexivity.
Defined.



(** Scenario C: Forest is full; a Forest card the player can pay for is
    turned down, and goes through once a slot is free. *)
Example full_habitat_rejects :
  let full := {| deck := []; hand := [Samples.agaric];
                 habitats := {| forest := replicate 5 Samples.lionsmane;
                                log := []; soil := [] |};
                 nutrients := 8; spores := 0; score := 12 |} in
  let four := {| deck := []; hand := [Samples.agaric];
                 habitats := {| forest := replicate 4 Samples.lionsmane;
                                log := []; soil := [] |};
                 nutrients := 8; spores := 0; score := 12 |} in
  reducer full (PLAY 0 Forest) = full
  /\ nutrients (reducer four (PLAY 0 Forest)) = 6
  /\ length (forest (habitats (reducer four (PLAY 0 Forest)))) = 5%nat.
Proof. repeat split. Qed.

(** A hand with a repeated id, which no session produces, loses every card
    of that id to one Play. *)
Example repeated_id_removed_together :
  hand (reducer {| deck := []; hand := [Samples.agaric; Samples.morel; Samples.agaric];
                   habitats := {| forest := []; log := []; soil := [] |};
                   nutrients := 8; spores := 0; score := 0 |} (PLAY 0 Forest))
  = [Samples.morel].
Proof. reflexivity. Qed.

End EngineFacts.

(** * Properties of the deck builder *)

Module DeckFacts.
Import Cards Spec.

Lemma template_with_id b n : template (with_id b n) = b.
Proof. now destruct b. Qed.

Lemma id_with_id b n : id (with_id b n) = n.
Proof. reflexivity. Qed.

Lemma instances_app l1 l2 n :
  instances (l1 ++ l2) n = instances l1 n ++ instances l2 (n + Z.of_nat (length l1)).
Proof.
  revert n. induction l1 as [|b l1 IH]; intros n; simpl.
  - now rewrite Z.add_0_r.
  - rewrite IH. do 3 f_equal. lia.
Qed.

Lemma instances_templates bases n : template <$> instances bases n = bases.
Proof.
  revert n. induction bases as [|b bases IH]; intros n; [reflexivity|].
  simpl instances. now rewrite fmap_cons, template_with_id, IH.
Qed.

Lemma instances_ids bases n :
  id <$> instances bases n = seqZ n (Z.of_nat (length bases)).
Proof.
  revert n. induction bases as [|b bases IH]; intros n; [reflexivity|].
  simpl instances. rewrite fmap_cons, IH, id_with_id.
  rewrite (seqZ_cons n) by (simpl; lia). do 2 f_equal. simpl length. lia.
Qed.

(** The inner [forEach] pushes one instance per template, in catalog order,
    and advances [idCounter] once per push. *)
Lemma push_foldl bases deck n :
  foldl (fun '(deck, idCounter) c => (deck ++ [with_id c idCounter], idCounter + 1))
        (deck, n) bases
  = (deck ++ instances bases n, n + Z.of_nat (length bases)).
Proof.
  revert deck n. induction bases as [|b bases IH]; intros deck n; simpl.
  - now rewrite app_nil_r, Z.add_0_r.
  - rewrite IH, <- app_assoc. simpl. f_equal. lia.
Qed.

Lemma fill_instances rounds deck n :
  fill rounds (deck, n)
  = (deck ++ instances (concat (replicate rounds BASE_CARDS)) n,
     n + 6 * Z.of_nat rounds).
Proof.
  revert deck n. induction rounds as [|k IH]; intros deck n.
  - simpl. now rewrite app_nil_r, Z.add_0_r.
  - simpl fill. unfold push_all. rewrite push_foldl, IH.
    change (concat (replicate (S k) BASE_CARDS))
      with (BASE_CARDS ++ concat (replicate k BASE_CARDS)).
    rewrite instances_app, <- app_assoc.
    f_equal. change (Z.of_nat (length BASE_CARDS)) with 6. lia.
Qed.

Lemma swap_perm deck i j : swap deck i j ≡ₚ deck.
Proof.
  unfold swap. destruct (deck !! i) as [di|] eqn:Hi; [|reflexivity].
  destruct (deck !! j) as [dj|] eqn:Hj; [|reflexivity].
  now apply Permutation_insert_swap.
Qed.

(** Inside the array the swap is the two writes of the source. *)
Lemma swap_in_range deck i j :
  (i < length deck)%nat -> (j <= i)%nat ->
  exists di dj, deck !! i = Some di /\ deck !! j = Some dj
    /\ swap deck i j = <[j:=di]> (<[i:=dj]> deck).
Proof.
  intros Hi Hj.
  destruct (lookup_lt_is_Some_2 deck i Hi) as [di Hdi].
  destruct (lookup_lt_is_Some_2 deck j ltac:(lia)) as [dj Hdj].
  exists di, dj. unfold swap. now rewrite Hdi, Hdj.
Qed.

(** [Math.floor(r * (i + 1))] is one of [0 .. i] when [0 <= r < 1]. *)
Lemma random_index_le r i :
  (0 <= r)%Q -> (r < 1)%Q -> (random_index r i <= i)%nat.
Proof.
  intros H0 H1. unfold random_index.
  set (n := Z.of_nat (i + 1)).
  assert (0 < n) as Hn by lia.
  assert (Qfloor (r * inject_Z n) < n) as Hlt.
  { rewrite Zlt_Qlt. eapply Qle_lt_trans; [apply Qfloor_le|].
    rewrite <- (Qmult_1_l (inject_Z n)) at 2.
    apply Qmult_lt_compat_r; [|assumption].
    change 0%Q with (inject_Z 0). now rewrite <- Zlt_Qlt. }
  lia.
Qed.

Lemma shuffle_perm random calls i deck : shuffle random calls i deck ≡ₚ deck.
Proof.
  revert calls deck. induction i as [|i IH]; intros calls deck; simpl.
  - reflexivity.
  - rewrite IH. apply swap_perm.
Qed.

(** The shuffle reads [random] only through the values of its calls. *)
Lemma shuffle_ext random1 random2 calls i deck :
  (forall k, (random1 k == random2 k)%Q) ->
  shuffle random1 calls i deck = shuffle random2 calls i deck.
Proof.
  intros Heq. revert calls deck. induction i as [|i IH]; intros calls deck; simpl.
  - reflexivity.
  - unfold random_index. now rewrite (Heq calls), IH.
Qed.

Lemma createDeck_ext random1 random2 n :
  (forall k, (random1 k == random2 k)%Q) ->
  createDeck n random1 = createDeck n random2.
Proof.
  intros Heq. unfold createDeck. destruct (fill 6 ([], n)) as [deck n'].
  f_equal. now apply shuffle_ext.
Qed.

Lemma createDeck_perm n random :
  fst (createDeck n random) ≡ₚ instances catalog_copies n
  /\ snd (createDeck n random) = n + 36.
Proof.
  unfold createDeck. rewrite fill_instances. cbv beta iota. cbn [fst snd].
  split; [|lia]. now rewrite shuffle_perm, app_nil_l.
Qed.

Lemma createDeck_unique_ids n random : NoDup (id <$> fst (createDeck n random)).
Proof.
  rewrite (proj1 (createDeck_perm n random)), instances_ids. apply NoDup_seqZ.
Qed.

Lemma copies_of_instances b bases n :
  copies_of b (instances bases n) = length (filter (fun x => x = b) bases).
Proof.
  unfold copies_of. revert n. induction bases as [|a bases IH]; intros n; [reflexivity|].
  simpl instances. rewrite !filter_cons, template_with_id.
  destruct (decide (a = b)); simpl; now rewrite IH.
Qed.

Lemma copies_of_perm b l1 l2 : l1 ≡ₚ l2 -> copies_of b l1 = copies_of b l2.
Proof. intros H. unfold copies_of. now rewrite H. Qed.

Lemma six_of_each_in_catalog :
  Forall (fun b => length (filter (fun x => x = b) catalog_copies) = 6%nat) BASE_CARDS.
Proof. repeat constructor. Qed.

Lemma BASE_CARDS_distinct : NoDup BASE_CARDS.
Proof. apply (bool_decide_unpack (NoDup BASE_CARDS)). vm_compute. reflexivity. Qed.

(** C8.  Whatever values [Math.random()] returns, the deck has 36 cards,
    is a permutation of six copies of each of the six catalog templates,
    and carries pairwise distinct ids; every index the shuffle draws lies
    inside the part of the array still to be shuffled. *)
Theorem createDeck_six_of_each (idCounter : Z) (random : nat -> Q) :
  random_ok random ->
  let d := fst (createDeck idCounter random) in
  length d = 36%nat
  /\ template <$> d ≡ₚ catalog_copies
  /\ (length BASE_CARDS = 6%nat /\ NoDup BASE_CARDS)
  /\ (forall b, b ∈ BASE_CARDS -> copies_of b d = 6%nat)
  /\ (forall c, c ∈ d -> template c ∈ BASE_CARDS)
  /\ NoDup (id <$> d)
  /\ id <$> d ≡ₚ seqZ idCounter 36
  /\ (forall calls i, (random_index (random calls) i <= i)%nat).
Proof.
  intros Hr d.
  destruct (createDeck_perm idCounter random) as [Hp _]. fold d in Hp.
  assert (template <$> d ≡ₚ catalog_copies) as Ht
    by now rewrite Hp, instances_templates.
  repeat split.
  - now rewrite Hp, <- (length_fmap id), instances_ids, length_seqZ.
  - exact Ht.
  - exact BASE_CARDS_distinct.
  - intros b Hb. rewrite (copies_of_perm b _ _ Hp), copies_of_instances.
    revert b Hb. apply Forall_forall, six_of_each_in_catalog.
  - intros c Hc. apply (list_elem_of_fmap_2 template) in Hc.
    rewrite Ht in Hc. unfold catalog_copies in Hc.
    apply list_elem_of_In, in_concat in Hc as (l & Hl & Hc).
    apply list_elem_of_In, elem_of_replicate_inv in Hl as ->.
    now apply list_elem_of_In.
  - apply createDeck_unique_ids.
  - now rewrite Hp, instances_ids.
  - intros calls i. destruct (Hr calls). now apply random_index_le.
Qed.

Lemma createDeck_six_of_each_witness :
  random_ok Samples.third
  /\ length (fst (createDeck 0 Samples.third)) = 36%nat
  /\ NoDup (id <$> fst (createDeck 0 Samples.third)).
Proof.
  assert (random_ok Samples.third) as Hr.
  { intros k. split; [discriminate | reflexivity]. }
  split; [exact Hr|].
  pose proof (createDeck_six_of_each 0 Samples.third Hr) as (Hl & _ & _ & _ & _ & Hn & _).
  split; [exact Hl | exact Hn].
Defined.

(** The deck when every call of [Math.random()] returns 1/3: its first
    five ids. *)
Example createDeck_third :
  id <$> take 5 (fst (createDeck 0 Samples.third)) = [14; 0; 23; 32; 1]
  /\ snd (createDeck 0 Samples.third) = 36.
Proof. split; vm_compute; reflexivity. Qed.

End DeckFacts.

(** * Properties of whole sessions *)

Module SessionFacts.
Import Cards Engine Spec EngineFacts DeckFacts.

(** A Play either returns its state or passed the four validations. *)
Lemma play_cases s cardId h :
  play s cardId h = s \/ exists c, valid_play s cardId h c.
Proof.
  unfold play, valid_play. fold (found s cardId).
  destruct (found s cardId) as [c|]; [|now left].
  destruct (bool_decide (habitat c = h)) eqn:Eh; [|now left].
  destruct (nutrients s <? cost c) eqn:Ec; [now left|].
  destruct (5 <=? Z.of_nat (length (get (habitats s) h))) eqn:El; [now left|].
  right. exists c. apply bool_decide_eq_true in Eh.
  apply Z.ltb_ge in Ec. apply Z.leb_gt in El. repeat split; [assumption|lia|lia].
Qed.

Lemma draw_conserved s : conserved s -> conserved (draw s).
Proof. unfold draw. now destruct (deck s). Qed.

Lemma play_update_conserved s cardId h c :
  valid_play s cardId h c -> conserved s -> conserved (play_update s c cardId h).
Proof.
  intros (_ & _ & Hc & Hl) (Hn & Hs & Hh). repeat split; simpl; [lia|assumption|].
  intros h'. destruct (decide (h' = h)) as [->|Hne].
  - rewrite get_put_eq, length_app. simpl. lia.
  - rewrite get_put_ne by assumption. apply Hh.
Qed.

Lemma reducer_conserved s a : conserved s -> conserved (reducer s a).
Proof.
  intros Hs. destruct a as [|cardId h|h]; simpl.
  - now apply draw_conserved.
  - destruct (play_cases s cardId h) as [->|[c Hv]]; [assumption|].
    rewrite (play_valid _ _ _ _ Hv). simpl.
    pose proof (play_update_conserved _ _ _ _ Hv Hs) as (Hn & Hp & Hh).
    destruct (power c) as [[]|]; [| |now apply draw_conserved|easy];
      repeat split; simpl in *; try assumption; lia.
  - destruct Hs as (Hn & Hp & Hh). repeat split; simpl; try assumption; lia.
Qed.

(** The reachable states are the results of replaying action sequences. *)
Lemma reachable_run random s :
  reachable random s <-> exists actions, s = run (initialState random) actions.
Proof.
  split.
  - intros Hr. induction Hr as [|s a _ [actions ->]].
    + now exists [].
    + exists (actions ++ [a]). now rewrite run_snoc.
  - intros [actions ->]. induction actions as [|a actions IH] using rev_ind.
    + apply reachable_init.
    + rewrite run_snoc. now apply reachable_step.
Qed.

(** C2.  In every state reachable from the initial state, nutrients and
    spores are non-negative and no habitat holds more than 5 cards; the state
    built inside a valid Play, before its power is resolved, obeys the same
    bounds. *)
Theorem reachable_conservation (random : nat -> Q) (s : State) :
  reachable random s ->
  (0 <= nutrients s /\ 0 <= spores s
   /\ forall h, (length (get (habitats s) h) <= 5)%nat)
  /\ forall cardId h c, valid_play s cardId h c ->
       conserved (play_update s c cardId h).
Proof.
  intros Hr. assert (conserved s) as Hs.
  { induction Hr as [|s a _ IH].
    - repeat split; simpl; try lia. intros []; simpl; lia.
    - now apply reducer_conserved. }
  split; [exact Hs|]. intros cardId h c Hv. now apply play_update_conserved.
Qed.

Lemma reachable_conservation_witness :
  0 <= nutrients (reducer (reducer (initialState Samples.third) DRAW) (ACTIVATE Forest))
  /\ 0 <= spores (reducer (reducer (initialState Samples.third) DRAW) (ACTIVATE Forest)).
Proof.
  pose proof (reachable_conservation Samples.third
                (reducer (reducer (initialState Samples.third) DRAW) (ACTIVATE Forest))) as H.
  destruct H as ((Hn & Hs & _) & _).
  - apply reachable_step, reachable_step, reachable_init.
  - split; [exact Hn | exact Hs].
Defined.

(** *** Cards are neither created nor lost, and ids stay unique *)

Lemma draw_cards s : all_cards (draw s) ≡ₚ all_cards s.
Proof.
  unfold draw. destruct (deck s) as [|top rest] eqn:E; [reflexivity|].
  unfold all_cards. simpl. rewrite E, drop_0. solve_Permutation.
Qed.

Lemma unique_ids_hand s : unique_ids s -> NoDup (id <$> hand s).
Proof.
  unfold unique_ids, all_cards. rewrite !fmap_app.
  intros H. apply NoDup_app in H as (_ & _ & H).
  now apply NoDup_app in H as (H & _).
Qed.

Lemma play_update_cards s cardId h c :
  valid_play s cardId h c -> NoDup (id <$> hand s) ->
  all_cards (play_update s c cardId h) ≡ₚ all_cards s.
Proof.
  intros (Hf & _) Hnd.
  destruct (remove_found _ _ _ Hf Hnd) as (l1 & l2 & Hh & Hr).
  unfold all_cards. simpl. rewrite filter_remove_by_id, Hr, Hh.
  destruct h; simpl; solve_Permutation.
Qed.

Lemma reducer_cards s a :
  unique_ids s -> all_cards (reducer s a) ≡ₚ all_cards s.
Proof.
  intros Hu. destruct a as [|cardId h|h]; simpl.
  - apply draw_cards.
  - destruct (play_cases s cardId h) as [->|[c Hv]]; [reflexivity|].
    rewrite (play_valid _ _ _ _ Hv). simpl.
    pose proof (play_update_cards _ _ _ _ Hv (unique_ids_hand _ Hu)) as Hp.
    destruct (power c) as [[]|]; try exact Hp.
    now rewrite draw_cards.
  - reflexivity.
Qed.

(** The cards of a reachable state are those [createDeck] made, each once. *)
Lemma reachable_cards random s :
  reachable random s ->
  all_cards s ≡ₚ instances catalog_copies 0 /\ unique_ids s.
Proof.
  intros Hr. induction Hr as [|s a _ [IHp IHu]].
  - unfold unique_ids.
    assert (all_cards (initialState random) = fst (createDeck 0 random)) as ->
      by (unfold all_cards, initialState;
          cbn [deck hand habitats forest log soil app]; apply app_nil_r).
    split; [apply createDeck_perm|apply createDeck_unique_ids].
  - pose proof (reducer_cards s a IHu) as Hp. split.
    + now rewrite Hp.
    + unfold unique_ids in *. now rewrite Hp.
Qed.

Lemma reachable_hand_ids random s : reachable random s -> NoDup (id <$> hand s).
Proof. intros Hr. now apply unique_ids_hand, (reachable_cards random). Qed.

(** *** Replay *)

Lemma run_cons s a actions : run s (a :: actions) = run (reducer s a) actions.
Proof. reflexivity. Qed.

Lemma draws_partition s n :
  hand (run s (replicate n DRAW)) = hand s ++ take n (deck s)
  /\ deck (run s (replicate n DRAW)) = drop n (deck s)
  /\ habitats (run s (replicate n DRAW)) = habitats s
  /\ nutrients (run s (replicate n DRAW)) = nutrients s
  /\ spores (run s (replicate n DRAW)) = spores s
  /\ score (run s (replicate n DRAW)) = score s.
Proof.
  revert s. induction n as [|n IH]; intros s.
  - simpl. now rewrite app_nil_r, drop_0.
  - change (replicate (S n) DRAW) with (DRAW :: replicate n DRAW).
    rewrite run_cons. destruct (IH (reducer s DRAW)) as (Hh & Hd & Hb & Hn & Hs & Hc).
    rewrite Hh, Hd, Hb, Hn, Hs, Hc. simpl. unfold draw.
    destruct (deck s) as [|top rest] eqn:E; simpl.
    + now rewrite E, take_nil, drop_nil.
    + now rewrite drop_0, <- app_assoc.
Qed.

End SessionFacts.

(** * Properties of the drag tracker *)

Module TrackerFacts.
Import Cards Engine Spec Tracker.

Lemma Qltb_lt a b : Qltb a b = true <-> (a < b)%Q.
Proof.
  unfold Qltb. rewrite Qlt_alt. destruct (Qcompare a b); split; congruence.
Qed.

Lemma inside_contains habitatRefs h px py :
  zone_contains habitatRefs h px py
  <-> exists r, get habitatRefs h = Some r /\ inside r px py = true.
Proof.
  unfold zone_contains, inside. split; intros (r & Hr & H); exists r; (split; [exact Hr|]).
  - rewrite !andb_true_iff, !Qltb_lt. tauto.
  - rewrite !andb_true_iff, !Qltb_lt in H. tauto.
Qed.

Section Scan.
Variable habitatRefs : PerHabitat (option DOMRect).
Variables (cardId : Z) (px py : Q).

(** The loop stops at the first zone that contains the point. *)
Lemma scan_first before h after :
  zone_contains habitatRefs h px py ->
  (forall h', h' ∈ before -> ~ zone_contains habitatRefs h' px py) ->
  scan (before ++ h :: after) habitatRefs cardId px py
  = ([Dispatch (PLAY cardId h); PlaySound playSnd], true).
Proof.
  intros Hh Hb. induction before as [|b before IH]; simpl.
  - apply inside_contains in Hh as (r & -> & ->). reflexivity.
  - assert (~ zone_contains habitatRefs b px py) as Hn by (apply Hb; left).
    rewrite inside_contains in Hn.
    assert (scan (before ++ h :: after) habitatRefs cardId px py
            = ([Dispatch (PLAY cardId h); PlaySound playSnd], true)) as E
      by (apply IH; intros h' Hin; apply Hb; now right).
    destruct (get habitatRefs b) as [r|]; [|exact E].
    destruct (inside r px py) eqn:Ei; [|exact E].
    exfalso. apply Hn. now exists r.
Qed.

(** With no such zone the loop runs to its end and does nothing. *)
Lemma scan_none zones :
  (forall h, h ∈ zones -> ~ zone_contains habitatRefs h px py) ->
  scan zones habitatRefs cardId px py = ([], false).
Proof.
  induction zones as [|b zones IH]; intros Hz; simpl; [reflexivity|].
  assert (~ zone_contains habitatRefs b px py) as Hn by (apply Hz; left).
  rewrite inside_contains in Hn.
  assert (scan zones habitatRefs cardId px py = ([], false)) as E
    by (apply IH; intros h Hin; apply Hz; now right).
  destruct (get habitatRefs b) as [r|]; [|exact E].
  destruct (inside r px py) eqn:Ei; [|exact E].
  exfalso. apply Hn. now exists r.
Qed.

(** One of the two always is the case. *)
Lemma first_or_none zones :
  (exists before h after, zones = before ++ h :: after
      /\ zone_contains habitatRefs h px py
      /\ forall h', h' ∈ before -> ~ zone_contains habitatRefs h' px py)
  \/ (forall h, h ∈ zones -> ~ zone_contains habitatRefs h px py).
Proof.
  induction zones as [|b zones IH].
  - right. intros h Hin. now apply elem_of_nil in Hin.
  - assert (zone_contains habitatRefs b px py \/ ~ zone_contains habitatRefs b px py)
      as [Hb|Hb].
    { rewrite inside_contains. destruct (get habitatRefs b) as [r|].
      - destruct (inside r px py) eqn:Ei.
        + left. now exists r.
        + right. intros (r' & [= <-] & H). congruence.
      - right. intros (r' & [=] & _). }
    + left. exists [], b, zones. repeat split; [assumption|].
      intros h' Hin. now apply elem_of_nil in Hin.
    + destruct IH as [(before & h & after & -> & Hh & Hbefore)|Hnone].
      * left. exists (b :: before), h, after. repeat split; [assumption|].
        intros h' Hin. apply elem_of_cons in Hin as [->|Hin]; auto.
      * right. intros h Hin. apply elem_of_cons in Hin as [->|Hin]; auto.
Qed.
End Scan.

Lemma zone_order_all h : h ∈ zone_order.
Proof. unfold zone_order. destruct h; rewrite !elem_of_cons; auto. Qed.

(** C9.  Releasing the pointer while a card [c] is dragged: if some drop
    zone contains the last pointer position, exactly one action is emitted,
    the Play of [c]'s id into the first such zone in the order Forest, Log,
    Soil; otherwise no action is emitted and the game state stays as it is.
    One of the two is always the case, and either way the tracker is Idle
    afterwards, its card cleared. *)
Theorem mouse_up_emits_first_zone (habitatRefs : PerHabitat (option DOMRect))
        (ui : UI) (c : Mushroom) :
  card (dragging ui) = Some c ->
  let px := x (dragging ui) in
  let py := y (dragging ui) in
  let ui' := fst (onMouseUp habitatRefs ui) in
  let actions := dispatched (snd (onMouseUp habitatRefs ui)) in
  (forall h, first_zone habitatRefs h px py -> actions = [PLAY (id c) h])
  /\ ((forall h, ~ zone_contains habitatRefs h px py) ->
      actions = [] /\ forall s, run s actions = s)
  /\ ((exists h, first_zone habitatRefs h px py)
      \/ (forall h, ~ zone_contains habitatRefs h px py))
  /\ zone_order = [Forest; Log; Soil]
  /\ mode ui' = Idle
  /\ card (dragging ui') = None.
Proof.
  intros Hc px py ui' actions.
  assert (forall h, first_zone habitatRefs h px py -> actions = [PLAY (id c) h]) as Hfirst.
  { intros h (before & after & Ho & Hh & Hb).
    unfold actions, onMouseUp. rewrite Hc.
    change [Forest; Log; Soil] with zone_order. rewrite Ho.
    fold px py. now rewrite (scan_first habitatRefs (id c) px py before h after Hh Hb). }
  assert ((forall h, ~ zone_contains habitatRefs h px py) -> actions = []) as Hnone.
  { intros Hn. unfold actions, onMouseUp. rewrite Hc. fold px py.
    rewrite (scan_none habitatRefs (id c) px py); [reflexivity|]. intros h _. apply Hn. }
  repeat split.
  - exact Hfirst.
  - now apply Hnone.
  - intros s. rewrite Hnone by assumption. reflexivity.
  - destruct (first_or_none habitatRefs px py zone_order)
      as [(before & h & after & Ho & Hh & Hb)|Hn].
    + left. exists h, before, after. now repeat split.
    + right. intros h. apply Hn, zone_order_all.
  - unfold ui', onMouseUp, mode. rewrite Hc.
    now destruct (scan _ _ _ _ _).
  - unfold ui', onMouseUp. rewrite Hc. now destruct (scan _ _ _ _ _).
Qed.

Lemma mouse_up_emits_first_zone_witness :
  card (dragging Samples.held) = Some Samples.agaric
  /\ dispatched (snd (onMouseUp Samples.overlapping Samples.held)) = [PLAY 0 Log]
  /\ dispatched (snd (onMouseUp Samples.elsewhere Samples.held)) = []
  /\ mode (fst (onMouseUp Samples.elsewhere Samples.held)) = Idle.
Proof.
  split; [reflexivity|].
  pose proof (mouse_up_emits_first_zone Samples.overlapping Samples.held Samples.agaric eq_refl)
    as (Hfirst & _).
  pose proof (mouse_up_emits_first_zone Samples.elsewhere Samples.held Samples.agaric eq_refl)
    as (_ & Hnone & _ & _ & Hidle & _).
  split; [|split].
  - apply (Hfirst Log). exists [Forest], [Soil]. split; [reflexivity|]. split.
    + exists (Samples.square 0 10). now repeat split.
    + intros h' Hin. apply list_elem_of_singleton in Hin as ->.
      intros (r & Hr & _). discriminate Hr.
  - apply Hnone. intros h (r & Hr & H1 & H2 & H3 & H4).
    destruct h; injection Hr as <-; simpl in *; discriminate.
  - exact Hidle.
Defined.

End TrackerFacts.

(** * Further properties of the game engine *)

Module EngineMore.
Import Cards Engine Spec Ledger EngineFacts DeckFacts SessionFacts.

Lemma total_app f l1 l2 : total f (l1 ++ l2) = total f l1 + total f l2.
Proof. induction l1 as [|c l1 IH]; simpl; lia. Qed.

Lemma with_power_app p l1 l2 :
  with_power p (l1 ++ l2) = with_power p l1 + with_power p l2.
Proof. unfold with_power. rewrite filter_app, length_app. lia. Qed.

Lemma with_power_one p c :
  with_power p [c] = if decide (power c = Some p) then 1 else 0.
Proof.
  unfold with_power. rewrite filter_cons, filter_nil.
  now destruct (decide (power c = Some p)).
Qed.

(** The fields of the state a valid Play returns. *)
Lemma play_fields s cardId h c :
  valid_play s cardId h c ->
  let s' := reducer s (PLAY cardId h) in
  habitats s' = put (habitats s) h (get (habitats s) h ++ [c])
  /\ score s' = score s + points c
  /\ spores s' = spores s + (if decide (power c = Some GainSpore) then 1 else 0)
  /\ nutrients s' = nutrients s - cost c
                    + (if decide (power c = Some GainNutrient) then 1 else 0)
  /\ deck s' = (if decide (power c = Some DrawCard) then drop 1 (deck s) else deck s)
  /\ hand s' = remove_by_id cardId (hand s)
               ++ (if decide (power c = Some DrawCard) then take 1 (deck s) else []).
Proof.
  intros Hv s'. subst s'.
  change (reducer s (PLAY cardId h)) with (play s cardId h).
  rewrite (play_valid _ _ _ _ Hv). cbv zeta.
  rewrite <- (filter_remove_by_id cardId (hand s)).
  destruct (power c) as [[]|];
    unfold draw, add_spore, add_nutrient, play_update;
    cbn [deck hand habitats nutrients spores score].
  3: destruct (deck s) as [|top rest];
       cbn [deck hand habitats nutrients spores score].
  all: rewrite ?decide_True by reflexivity; rewrite ?decide_False by discriminate.
  all: rewrite ?app_nil_r, ?Z.add_0_r; repeat split.
Qed.

(** Appending to one habitat appends to the board, up to the order in which
    the habitats are listed. *)
Lemma played_put s s' h c :
  habitats s' = put (habitats s) h (get (habitats s) h ++ [c]) ->
  played s' ≡ₚ c :: played s.
Proof.
  unfold played. intros ->. destruct h; simpl; solve_Permutation.
Qed.

Lemma total_perm f l1 l2 : l1 ≡ₚ l2 -> total f l1 = total f l2.
Proof. induction 1; simpl; lia. Qed.

Lemma with_power_perm p l1 l2 : l1 ≡ₚ l2 -> with_power p l1 = with_power p l2.
Proof. intros H. unfold with_power. now rewrite H. Qed.

Lemma draw_played s : played (draw s) = played s.
Proof. unfold draw. now destruct (deck s). Qed.

Lemma draw_fields s :
  habitats (draw s) = habitats s /\ nutrients (draw s) = nutrients s
  /\ spores (draw s) = spores s /\ score (draw s) = score s.
Proof. unfold draw. now destruct (deck s). Qed.

(** One step of the ledger, from any state: what the score and the spores
    gain is what the board gains, and the nutrients lose the cost and gain
    the GainNutrient bonus, Activate only adding on top. *)
Lemma ledger_step s a :
  let s' := reducer s a in
  score s' - total points (played s') = score s - total points (played s)
  /\ spores s' - with_power GainSpore (played s')
     = spores s - with_power GainSpore (played s)
  /\ nutrients s + total cost (played s) - with_power GainNutrient (played s)
     <= nutrients s' + total cost (played s') - with_power GainNutrient (played s')
  /\ (match a with ACTIVATE _ => False | _ => True end ->
      nutrients s' + total cost (played s') - with_power GainNutrient (played s')
      = nutrients s + total cost (played s) - with_power GainNutrient (played s)).
Proof.
  destruct a as [|cardId h|h]; intros s'; subst s'.
  - rewrite reducer_DRAW, draw_played.
    destruct (draw_fields s) as (_ & -> & -> & ->). repeat split; lia.
  - simpl. destruct (play_cases s cardId h) as [->|[c Hv]]; [repeat split; lia|].
    destruct (play_fields _ _ _ _ Hv) as (Hb & Hsc & Hsp & Hn & _).
    change (play s cardId h) with (reducer s (PLAY cardId h)).
    pose proof (played_put _ _ _ _ Hb) as Hp.
    rewrite !(total_perm _ _ _ Hp), !(with_power_perm _ _ _ Hp), Hsc, Hsp, Hn.
    change (c :: played s) with ([c] ++ played s).
    rewrite !with_power_app, !with_power_one. simpl.
    repeat split; lia.
  - simpl. unfold played. simpl. repeat split; lia.
Qed.

Lemma reachable_conserved random s : reachable random s -> conserved s.
Proof.
  induction 1 as [|s a _ IH].
  - repeat split; simpl; try lia. intros []; simpl; lia.
  - now apply reducer_conserved.
Qed.

Lemma catalog_copies_elem b : b ∈ catalog_copies -> b ∈ BASE_CARDS.
Proof.
  unfold catalog_copies. intros Hb.
  apply list_elem_of_In, in_concat in Hb as (l & Hl & Hb).
  apply list_elem_of_In, elem_of_replicate_inv in Hl as ->.
  now apply list_elem_of_In.
Qed.

(** Every card of a reachable state is an instance of a catalog entry. *)
Lemma reachable_catalog random s c :
  reachable random s -> c ∈ all_cards s -> template c ∈ BASE_CARDS.
Proof.
  intros Hr Hc. destruct (reachable_cards _ _ Hr) as [Hp _].
  rewrite Hp in Hc. apply (list_elem_of_fmap_2 template) in Hc.
  rewrite instances_templates in Hc. now apply catalog_copies_elem.
Qed.

Lemma hand_in_all_cards s c : c ∈ hand s -> c ∈ all_cards s.
Proof. unfold all_cards. rewrite !elem_of_app. tauto. Qed.

Lemma board_in_all_cards s h c : c ∈ get (habitats s) h -> c ∈ all_cards s.
Proof. unfold all_cards. rewrite !elem_of_app. destruct h; simpl; tauto. Qed.

Lemma deck_in_all_cards s c : c ∈ deck s -> c ∈ all_cards s.
Proof. unfold all_cards. rewrite !elem_of_app. tauto. Qed.

Lemma valid_play_in_hand s cardId h c :
  valid_play s cardId h c -> c ∈ hand s /\ id c = cardId.
Proof.
  intros (Hf & _). destruct (found_split _ _ _ Hf) as (Hid & l1 & l2 & -> & _).
  split; [|assumption]. rewrite elem_of_app, elem_of_cons. auto.
Qed.

Lemma run_app s l1 l2 : run s (l1 ++ l2) = run (run s l1) l2.
Proof. unfold run. apply foldl_app. Qed.

(** X1.  No action creates, loses or duplicates a card: from a state with
    unique ids, any sequence of actions leaves the cards of deck, hand and
    board together a permutation of what they were, ids still unique; in a
    session these are the 36 cards [createDeck] made, six per catalog
    entry. *)
Theorem cards_conserved :
  (forall s actions,
      unique_ids s ->
      all_cards (run s actions) ≡ₚ all_cards s /\ unique_ids (run s actions))
  /\ (forall random s,
        reachable random s ->
        (length (deck s) + length (hand s) + length (played s) = 36)%nat
        /\ id <$> all_cards s ≡ₚ seqZ 0 36
        /\ forall b, b ∈ BASE_CARDS -> copies_of b (all_cards s) = 6%nat).
Proof.
  split.
  - intros s actions. induction actions as [|a actions IH] using rev_ind; intros Hu.
    + split; [reflexivity|assumption].
    + destruct (IH Hu) as [Hp Hu']. rewrite run_snoc.
      pose proof (reducer_cards (run s actions) a Hu') as Hstep. split.
      * now rewrite Hstep.
      * unfold unique_ids in *. now rewrite Hstep.
  - intros random s Hr. destruct (reachable_cards _ _ Hr) as [Hp _].
    repeat split.
    + transitivity (length (all_cards s)).
      * unfold all_cards, played. rewrite !length_app. lia.
      * now rewrite Hp, <- (length_fmap id), instances_ids, length_seqZ.
    + now rewrite Hp, instances_ids.
    + intros b Hb. rewrite (copies_of_perm b _ _ Hp), copies_of_instances.
      revert b Hb. apply Forall_forall, six_of_each_in_catalog.
Qed.

Lemma cards_conserved_witness :
  all_cards (run (Samples.lion_in_hand [Samples.morel]) [PLAY 2 Forest; DRAW; PLAY 0 Forest])
  ≡ₚ all_cards (Samples.lion_in_hand [Samples.morel])
  /\ (length (deck (reducer (initialState Samples.third) DRAW))
      + length (hand (reducer (initialState Samples.third) DRAW))
      + length (played (reducer (initialState Samples.third) DRAW)) = 36)%nat.
Proof.
  split.
  - apply (proj1 cards_conserved).
    apply (bool_decide_unpack
             (NoDup (id <$> all_cards (Samples.lion_in_hand [Samples.morel])))).
    reflexivity.
  - exact (proj1 (proj2 cards_conserved Samples.third
                        (reducer (initialState Samples.third) DRAW)
                        (reachable_step _ _ DRAW (reachable_init _)))).
Defined.

Lemma reachable_ledger random s :
  reachable random s ->
  score s = total points (played s)
  /\ spores s = with_power GainSpore (played s).
Proof.
  induction 1 as [|s a _ [IHsc IHsp]].
  - split; reflexivity.
  - destruct (ledger_step s a) as (Hsc & Hsp & _). split; lia.
Qed.

(** X2.  In every reachable state the score is the sum of the points of the
    cards on the board, and the spores count the GainSpore cards on it; from
    any state at all, a sequence of actions changes the score by the points
    of the cards it adds to the board. *)
Theorem board_ledger :
  (forall random s,
      reachable random s ->
      score s = total points (played s)
      /\ spores s = with_power GainSpore (played s))
  /\ (forall s actions,
        score (run s actions) - score s
        = total points (played (run s actions)) - total points (played s)).
Proof.
  split; [exact reachable_ledger|].
  intros s actions. induction actions as [|a actions IH] using rev_ind.
  - simpl. lia.
  - rewrite run_snoc.
    destruct (ledger_step (run s actions) a) as (Hsc & _). lia.
Qed.

Lemma board_ledger_witness :
  score (reducer (reducer (initialState Samples.third) DRAW) (PLAY 14 Forest))
  = total points (played (reducer (reducer (initialState Samples.third) DRAW)
                                  (PLAY 14 Forest))).
Proof.
  exact (proj1 (proj1 board_ledger Samples.third _
                  (reachable_step _ _ (PLAY 14 Forest)
                     (reachable_step _ _ DRAW (reachable_init _))))).
Defined.

(** X3.  Nutrients are accounted for: in a session with no Activate, the
    nutrients are the initial 8, less the cost of the cards on the board,
    plus one per GainNutrient card on it; with Activate in the trace they
    are at least that. *)
Theorem nutrient_ledger (random : nat -> Q) (actions : list Action) :
  let s := run (initialState random) actions in
  8 - total cost (played s) + with_power GainNutrient (played s) <= nutrients s
  /\ (no_activate actions ->
      nutrients s = 8 - total cost (played s) + with_power GainNutrient (played s)).
Proof.
  induction actions as [|a actions IH] using rev_ind.
  - split; [|intros _]; reflexivity.
  - cbv zeta in *. rewrite run_snoc.
    destruct IH as [IHle IHeq].
    destruct (ledger_step (run (initialState random) actions) a) as (_ & _ & Hle & Heq).
    cbv zeta in *. split; [lia|].
    intros Hna. apply Forall_app in Hna as [Hna Ha].
    rewrite Forall_singleton in Ha. specialize (IHeq Hna). specialize (Heq Ha). lia.
Qed.

Lemma nutrient_ledger_witness :
  no_activate [DRAW; PLAY 14 Forest]
  /\ nutrients (run (initialState Samples.third) [DRAW; PLAY 14 Forest])
     = 8 - total cost (played (run (initialState Samples.third) [DRAW; PLAY 14 Forest]))
       + with_power GainNutrient
           (played (run (initialState Samples.third) [DRAW; PLAY 14 Forest])).
Proof.
  assert (no_activate [DRAW; PLAY 14 Forest]) as Hna by (repeat constructor).
  split; [exact Hna|].
  exact (proj2 (nutrient_ledger Samples.third [DRAW; PLAY 14 Forest]) Hna).
Defined.

Lemma reducer_board_cases s a h :
  get (habitats (reducer s a)) h = get (habitats s) h
  \/ exists c, habitat c = h /\ c ∈ hand s
       /\ get (habitats (reducer s a)) h = get (habitats s) h ++ [c].
Proof.
  destruct a as [|cardId h0|h0].
  - left. rewrite reducer_DRAW. now destruct (draw_fields s) as (-> & _).
  - simpl. destruct (play_cases s cardId h0) as [->|[c Hv]]; [now left|].
    destruct (play_fields _ _ _ _ Hv) as (Hb & _).
    change (play s cardId h0) with (reducer s (PLAY cardId h0)). rewrite Hb.
    destruct (decide (h = h0)) as [->|Hne].
    + right. exists c. rewrite get_put_eq.
      destruct (valid_play_in_hand _ _ _ _ Hv) as [Hin _].
      destruct Hv as (_ & Hh & _). now repeat split.
    + left. now apply get_put_ne.
  - now left.
Qed.

(** X4.  Cards lie in their own habitat: if every card on the board of a
    state is in the habitat it belongs to, the same holds after any sequence
    of actions; it holds in every reachable state. *)
Theorem board_sorted_by_habitat :
  (forall s actions,
      (forall h c, c ∈ get (habitats s) h -> habitat c = h) ->
      forall h c, c ∈ get (habitats (run s actions)) h -> habitat c = h)
  /\ (forall random s,
        reachable random s ->
        forall h c, c ∈ get (habitats s) h -> habitat c = h).
Proof.
  assert (forall s a,
             (forall h c, c ∈ get (habitats s) h -> habitat c = h) ->
             forall h c, c ∈ get (habitats (reducer s a)) h -> habitat c = h) as Hstep.
  { intros s a Hs h c. destruct (reducer_board_cases s a h) as [->|(d & Hd & _ & ->)].
    - apply Hs.
    - rewrite elem_of_app, list_elem_of_singleton. intros [Hc| ->]; [now apply Hs|assumption]. }
  split.
  - intros s actions Hs. induction actions as [|a actions IH] using rev_ind.
    + exact Hs.
    + rewrite run_snoc. now apply Hstep.
  - intros random s Hr. induction Hr as [|s a _ IH].
    + intros [] c Hc; simpl in Hc; now apply elem_of_nil in Hc.
    + now apply Hstep.
Qed.

Lemma board_sorted_by_habitat_witness :
  Samples.shiitake ∈ get (habitats (run (Samples.lion_in_hand []) [PLAY 2 Forest])) Log
  /\ habitat Samples.shiitake = Log.
Proof.
  assert (Samples.shiitake
          ∈ get (habitats (run (Samples.lion_in_hand []) [PLAY 2 Forest])) Log) as Hin
    by (vm_compute; left).
  split; [exact Hin|].
  refine (proj1 board_sorted_by_habitat (Samples.lion_in_hand []) [PLAY 2 Forest]
                _ Log Samples.shiitake Hin).
  intros [] c Hc; simpl in Hc.
  - now apply elem_of_nil in Hc.
  - now apply list_elem_of_singleton in Hc as ->.
  - now apply elem_of_nil in Hc.
Defined.

(** X5.  The board is append-only and the deck is only ever consumed from
    the front: after any sequence of actions from any state, each habitat
    still starts with the cards it held, in the same order, the deck is a
    tail of the old deck, and the spores have not gone down. *)
Theorem board_append_only (s : State) (actions : list Action) :
  (forall h, get (habitats s) h `prefix_of` get (habitats (run s actions)) h)
  /\ deck (run s actions) `suffix_of` deck s
  /\ spores s <= spores (run s actions).
Proof.
  induction actions as [|a actions (IHb & IHd & IHs)] using rev_ind.
  - repeat split; reflexivity.
  - rewrite run_snoc. set (t := run s actions) in *. repeat split.
    + intros h. etransitivity; [apply IHb|].
      destruct (reducer_board_cases t a h) as [->|(c & _ & _ & ->)];
        [reflexivity|apply prefix_app_r; reflexivity].
    + etransitivity; [|apply IHd].
      destruct a as [|cardId h|h]; [| |reflexivity].
      * rewrite reducer_DRAW. unfold draw.
        destruct (deck t) as [|top rest] eqn:E; simpl; rewrite ?E; [reflexivity|].
        rewrite drop_0. now apply suffix_cons_r.
      * simpl. destruct (play_cases t cardId h) as [->|[c Hv]]; [reflexivity|].
        destruct (play_fields _ _ _ _ Hv) as (_ & _ & _ & _ & Hd & _).
        change (play t cardId h) with (reducer t (PLAY cardId h)). rewrite Hd.
        destruct (decide _); [apply suffix_drop|reflexivity].
    + etransitivity; [apply IHs|].
      destruct a as [|cardId h|h]; [| |reflexivity].
      * rewrite reducer_DRAW. destruct (draw_fields t) as (_ & _ & -> & _). reflexivity.
      * simpl. destruct (play_cases t cardId h) as [->|[c Hv]]; [reflexivity|].
        destruct (play_fields _ _ _ _ Hv) as (_ & _ & Hsp & _).
        change (play t cardId h) with (reducer t (PLAY cardId h)). rewrite Hsp.
        destruct (decide _); lia.
Qed.

Lemma catalog_margins :
  Forall (fun b =>
            0 <= base_points b
            /\ 2 <= base_points b - base_cost b
                    + (if decide (base_power b = Some GainSpore) then 2 else 0)
                    + (if decide (base_power b = Some GainNutrient) then 1 else 0)
            /\ base_points b <= best_points (base_habitat b))
         BASE_CARDS.
Proof. repeat constructor; vm_compute; congruence. Qed.


Lemma reachable_board_habitat random s h c :
  reachable random s -> c ∈ get (habitats s) h -> habitat c = h.
Proof.
  intros Hr. revert h c. induction Hr as [|s a _ IH]; intros h c.
  - destruct h; simpl; intros Hc; now apply elem_of_nil in Hc.
  - destruct (reducer_board_cases s a h) as [->|(d & Hd & _ & ->)]; [apply IH|].
    rewrite elem_of_app, list_elem_of_singleton. intros [Hc| ->]; [now apply IH|assumption].
Qed.

Lemma total_bound f (cards : list Mushroom) m :
  (forall c, c ∈ cards -> f c <= m) ->
  total f cards <= Z.of_nat (length cards) * m.
Proof.
  induction cards as [|c cards IH]; intros Hb; [simpl; lia|].
  assert (f c <= m) by (apply Hb; left).
  assert (total f cards <= Z.of_nat (length cards) * m)
    by (apply IH; intros d Hd; apply Hb; now right).
  simpl total. simpl length. lia.
Qed.

(** X7.  The score of a session never exceeds 55: at most five cards per
    habitat, each worth at most the best card of that habitat in the catalog
    (5 in Forest, 3 in Log, 3 in Soil). *)
Theorem score_at_most_55 (random : nat -> Q) (s : State) :
  reachable random s ->
  (forall h, total points (get (habitats s) h) <= 5 * best_points h)
  /\ best_points Forest = 5 /\ best_points Log = 3 /\ best_points Soil = 3
  /\ score s <= 55.
Proof.
  intros Hr.
  assert (forall h, total points (get (habitats s) h) <= 5 * best_points h) as Hh.
  { intros h. destruct (reachable_conserved _ _ Hr) as (_ & _ & Hlen).
    assert (0 <= best_points h) by (destruct h; vm_compute; discriminate).
    etransitivity; [apply (total_bound points _ (best_points h))|].
    - intros c Hc.
      pose proof (reachable_catalog _ _ _ Hr (board_in_all_cards _ _ _ Hc)) as Hcat.
      pose proof (proj1 (Forall_forall _ _) catalog_margins _ Hcat) as (_ & _ & Hb).
      simpl in Hb. now rewrite (reachable_board_habitat _ _ _ _ Hr Hc) in Hb.
    - specialize (Hlen h). nia. }
  split; [exact Hh|]. repeat split.
  destruct (reachable_ledger random s Hr) as [-> _].
  unfold played. rewrite !total_app.
  pose proof (Hh Forest) as HF. pose proof (Hh Log) as HL. pose proof (Hh Soil) as HS.
  change (best_points Forest) with 5 in HF. change (best_points Log) with 3 in HL.
  change (best_points Soil) with 3 in HS. simpl in HF, HL, HS. lia.
Qed.

Lemma score_at_most_55_witness :
  score (reducer (reducer (initialState Samples.third) DRAW) (PLAY 14 Forest)) <= 55.
Proof.
  exact (proj2 (proj2 (proj2 (proj2
           (score_at_most_55 Samples.third _
              (reachable_step _ _ (PLAY 14 Forest)
                 (reachable_step _ _ DRAW (reachable_init _)))))))).
Defined.

(** X8.  A Play dispatched twice in a row acts once: in a state with unique
    ids the second Play finds its card gone from the hand and is turned
    down. *)
Theorem play_twice_is_once (s : State) (cardId : Z) (h : Habitat) :
  unique_ids s ->
  reducer (reducer s (PLAY cardId h)) (PLAY cardId h) = reducer s (PLAY cardId h).
Proof.
  intros Hu. destruct (play_cases s cardId h) as [E|[c Hv]].
  - change (reducer s (PLAY cardId h)) with (play s cardId h). rewrite E.
    exact E.
  - set (s' := reducer s (PLAY cardId h)).
    assert (cardId ∉ id <$> hand s') as Hgone.
    { destruct (play_fields _ _ _ _ Hv) as (_ & _ & _ & _ & _ & Hh).
      fold s' in Hh. rewrite Hh, fmap_app, not_elem_of_app.
      split; [apply remove_by_id_gone|].
      destruct (decide _); [|apply not_elem_of_nil].
      intros Hin. apply list_elem_of_fmap in Hin as (d & Hid & Hd).
      apply elem_of_take in Hd as (i & Hd & _).
      apply list_elem_of_lookup_2 in Hd.
      destruct (valid_play_in_hand _ _ _ _ Hv) as [Hc Hidc].
      unfold unique_ids, all_cards in Hu. rewrite fmap_app in Hu.
      apply NoDup_app in Hu as (_ & Hdisj & _).
      apply (Hdisj (id d)); [now apply list_elem_of_fmap_2|].
      rewrite fmap_app, elem_of_app. left.
      rewrite <- Hid, <- Hidc. now apply list_elem_of_fmap_2. }
    change (reducer s' (PLAY cardId h)) with (play s' cardId h).
    unfold play. fold (found s' cardId). now rewrite (found_none _ _ Hgone).
Qed.

Lemma play_twice_is_once_witness :
  reducer (reducer (Samples.lion_in_hand [Samples.morel]) (PLAY 2 Forest)) (PLAY 2 Forest)
  = reducer (Samples.lion_in_hand [Samples.morel]) (PLAY 2 Forest).
Proof.
  apply play_twice_is_once.
  apply (bool_decide_unpack
           (NoDup (id <$> all_cards (Samples.lion_in_hand [Samples.morel])))).
  reflexivity.
Defined.

(** X9.  Drawing at least as often as the deck has cards empties the deck
    into the hand, in deck order, and changes nothing else; further Draws
    are lost. *)
Theorem draws_exhaust_deck (s : State) (n : nat) :
  (length (deck s) <= n)%nat ->
  run s (replicate n DRAW)
  = {| deck := []; hand := hand s ++ deck s; habitats := habitats s;
       nutrients := nutrients s; spores := spores s; score := score s |}.
Proof.
  intros Hn. destruct (draws_partition s n) as (Hh & Hd & Hb & Hnu & Hsp & Hsc).
  rewrite <- (state_eta (run s (replicate n DRAW))).
  rewrite Hh, Hd, Hb, Hnu, Hsp, Hsc.
  now rewrite take_ge, drop_ge by assumption.
Qed.

Lemma draws_exhaust_deck_witness :
  hand (run (Samples.lion_in_hand [Samples.morel]) (replicate 3 DRAW))
  = [Samples.agaric; Samples.lionsmane; Samples.morel].
Proof.
  rewrite (draws_exhaust_deck (Samples.lion_in_hand [Samples.morel]) 3); [reflexivity|].
  simpl. lia.
Defined.

End EngineMore.

(** * Further properties of the deck builder *)

Module DeckMore.
Import Cards Spec Ledger DeckFacts.

(** X10.  A second call of [createDeck] continues the numbering where the
    first stopped, so the ids of two decks never collide. *)
Theorem createDeck_again_fresh_ids (n : Z) (random1 random2 : nat -> Q) :
  let first := createDeck n random1 in
  let second := createDeck (snd first) random2 in
  NoDup (id <$> fst first ++ fst second)
  /\ id <$> fst first ++ fst second ≡ₚ seqZ n 72
  /\ snd second = n + 72.
Proof.
  intros first second.
  destruct (createDeck_perm n random1) as [Hp1 Hn1]. fold first in Hp1, Hn1.
  destruct (createDeck_perm (snd first) random2) as [Hp2 Hn2]. fold second in Hp2, Hn2.
  assert (id <$> fst first ++ fst second ≡ₚ seqZ n 72) as Hp.
  { rewrite fmap_app, Hp1, Hp2, !instances_ids, Hn1.
    change (Z.of_nat (length catalog_copies)) with 36.
    now rewrite <- seqZ_app by lia. }
  split; [|split; [exact Hp|lia]].
  rewrite Hp. apply NoDup_seqZ.
Qed.

Lemma swap_length deck i j : length (swap deck i j) = length deck.
Proof. now rewrite swap_perm. Qed.

Lemma shuffle_length random calls i deck :
  length (shuffle random calls i deck) = length deck.
Proof. now rewrite shuffle_perm. Qed.

Lemma swap_app_l pre post i j :
  (i < length pre)%nat -> (j < length pre)%nat ->
  swap (pre ++ post) i j = swap pre i j ++ post.
Proof.
  intros Hi Hj. unfold swap. rewrite !lookup_app_l by assumption.
  destruct (pre !! i) as [di|]; [|reflexivity].
  destruct (pre !! j) as [dj|]; [|reflexivity].
  rewrite insert_app_l by assumption.
  rewrite insert_app_l by now rewrite length_insert.
  reflexivity.
Qed.

(** The loop at index [i] touches only the first [i + 1] cards. *)
Lemma shuffle_app random calls i pre post :
  random_ok random -> (i < length pre)%nat ->
  shuffle random calls i (pre ++ post) = shuffle random calls i pre ++ post.
Proof.
  intros Hr. revert calls pre. induction i as [|i IH]; intros calls pre Hi; simpl.
  - reflexivity.
  - destruct (Hr calls) as [H0 H1].
    pose proof (random_index_le (random calls) (S i) H0 H1) as Hj.
    rewrite swap_app_l by lia. apply IH. rewrite swap_length. lia.
Qed.

(** The swap puts the card found at [j] last. *)
Lemma swap_last deck i j x :
  length deck = S i -> deck !! j = Some x ->
  exists deck', swap deck i j = deck' ++ [x] /\ length deck' = i.
Proof.
  intros Hl Hj. pose proof (lookup_lt_Some _ _ _ Hj) as Hjlt.
  assert (swap deck i j !! i = Some x) as Hx.
  { unfold swap. destruct (lookup_lt_is_Some_2 deck i ltac:(lia)) as [di Hdi].
    rewrite Hdi, Hj. destruct (decide (i = j)) as [->|Hne].
    - rewrite list_lookup_insert_eq by (rewrite length_insert; lia). congruence.
    - rewrite list_lookup_insert_ne by congruence.
      now rewrite list_lookup_insert_eq by lia. }
  exists (take i (swap deck i j)). split.
  - rewrite <- (take_drop_middle _ _ _ Hx) at 1.
    now rewrite drop_ge by (rewrite swap_length; lia).
  - rewrite length_take, swap_length. lia.
Qed.

Lemma random_index_pick j i : random_index (pick j i) i = j.
Proof.
  unfold random_index, pick, Qfloor, Qmult, inject_Z. simpl Qnum. simpl Qden.
  rewrite Pos.mul_1_r.
  replace (Z.pos (Pos.of_nat (i + 1))) with (Z.of_nat (i + 1))
    by (rewrite <- (Nat2Pos.id (i + 1)) at 1 by lia; apply positive_nat_Z).
  rewrite Z.div_mul by lia. apply Nat2Z.id.
Qed.

Lemma pick_ok j i : (j <= i)%nat -> (0 <= pick j i)%Q /\ (pick j i < 1)%Q.
Proof.
  intros Hj. unfold pick, Qle, Qlt. simpl.
  replace (Z.pos (Pos.of_nat (i + 1))) with (Z.of_nat (i + 1))
    by (rewrite <- (Nat2Pos.id (i + 1)) at 1 by lia; apply positive_nat_Z).
  lia.
Qed.

(** The loop started at call number [calls] reads no earlier value. *)
Lemma shuffle_ext_from random1 random2 calls i deck :
  (forall k, (calls <= k)%nat -> random1 k = random2 k) ->
  shuffle random1 calls i deck = shuffle random2 calls i deck.
Proof.
  revert calls deck. induction i as [|i IH]; intros calls deck Heq; simpl.
  - reflexivity.
  - rewrite (Heq calls) by lia. apply IH. intros k Hk. apply Heq. lia.
Qed.

(** The loop can produce every ordering of the cards it is given. *)
Lemma shuffle_onto i calls deck target :
  length deck = S i -> target ≡ₚ deck ->
  exists random, random_ok random /\ shuffle random calls i deck = target.
Proof.
  revert calls deck target. induction i as [|i IH]; intros calls deck target Hl Hp.
  - exists (fun _ => 0%Q). split; [intros k; split; [discriminate|reflexivity]|].
    destruct deck as [|a [|b deck]]; try discriminate.
    now apply Permutation_singleton_r in Hp.
  - destruct target as [|x target' _] using rev_ind.
    { apply Permutation_length in Hp. rewrite Hl in Hp. discriminate. }
    assert (x ∈ deck) as Hx by (rewrite <- Hp, elem_of_app, list_elem_of_singleton; auto).
    apply list_elem_of_lookup_1 in Hx as [j Hj].
    pose proof (lookup_lt_Some _ _ _ Hj) as Hjlt.
    destruct (swap_last deck (S i) j x Hl Hj) as (deck' & Hs & Hl').
    assert (target' ≡ₚ deck') as Hp'.
    { apply (Permutation_app_inv_r [x]). now rewrite <- Hs, swap_perm. }
    destruct (IH (S calls) deck' target' Hl' Hp') as (random' & Hr' & Hsh).
    exists (fun k => if decide (k = calls) then pick j (S i) else random' k). split.
    + intros k. destruct (decide (k = calls)); [apply pick_ok; lia|apply Hr'].
    + simpl. rewrite decide_True by reflexivity. rewrite random_index_pick, Hs.
      rewrite shuffle_app.
      * f_equal. rewrite <- Hsh. apply shuffle_ext_from.
        intros k Hk. now rewrite decide_False by lia.
      * intros k. destruct (decide (k = calls)); [apply pick_ok; lia|apply Hr'].
      * lia.
Qed.

End DeckMore.

(** * Further properties of the drag tracker *)

Module TrackerMore.
Import Cards Engine Spec Tracker Gesture EngineFacts SessionFacts TrackerFacts.

(** The loop ends in one of two ways. *)
Lemma scan_shape zones habitatRefs cardId px py :
  scan zones habitatRefs cardId px py = ([], false)
  \/ exists h, h ∈ zones
       /\ scan zones habitatRefs cardId px py
          = ([Dispatch (PLAY cardId h); PlaySound playSnd], true).
Proof.
  induction zones as [|b zones IH]; simpl; [now left|].
  assert (scan zones habitatRefs cardId px py = ([], false)
          \/ exists h, h ∈ b :: zones
               /\ scan zones habitatRefs cardId px py
                  = ([Dispatch (PLAY cardId h); PlaySound playSnd], true)) as IH'.
  { destruct IH as [E|(h & Hin & E)]; [now left|].
    right. exists h. split; [now right|exact E]. }
  destruct (get habitatRefs b) as [r|]; [|exact IH'].
  destruct (inside r px py); [|exact IH'].
  right. exists b. split; [left|reflexivity].
Qed.

(** What [onMouseUp] hands to [dispatch] while a card is held. *)
Lemma onMouseUp_dispatched habitatRefs ui c :
  card (dragging ui) = Some c ->
  card (dragging (fst (onMouseUp habitatRefs ui))) = None
  /\ (dispatched (snd (onMouseUp habitatRefs ui)) = []
      \/ exists h, dispatched (snd (onMouseUp habitatRefs ui)) = [PLAY (id c) h]).
Proof.
  intros Hc. unfold onMouseUp. rewrite Hc.
  destruct (scan_shape [Forest; Log; Soil] habitatRefs (id c)
                       (x (dragging ui)) (y (dragging ui))) as [->|(h & _ & ->)].
  - split; [reflexivity|now left].
  - split; [reflexivity|]. right. now exists h.
Qed.

Lemma dispatched_app l1 l2 : dispatched (l1 ++ l2) = dispatched l1 ++ dispatched l2.
Proof.
  induction l1 as [|e l1 IH]; [reflexivity|].
  destruct e; simpl; now rewrite IH.
Qed.

Lemma handle_all_snoc ui events e :
  handle_all ui (events ++ [e])
  = (fst (handle (fst (handle_all ui events)) e),
     snd (handle_all ui events) ++ snd (handle (fst (handle_all ui events)) e)).
Proof.
  revert ui. induction events as [|e0 events IH]; intros ui; simpl.
  - destruct (handle ui e). now rewrite app_nil_r.
  - destruct (handle ui e0) as [ui1 effects1]. rewrite IH.
    destruct (handle_all ui1 events) as [ui2 effects2]. simpl.
    now rewrite app_assoc.
Qed.

(** X13.  While a card is held, pointer moves only move it: after any
    number of them the same card is held at the position of the last move,
    nothing has been dispatched and no sound played.  With no card held
    they do nothing at all. *)
Theorem moves_only_track_position (ui : UI) (moves : list (Q * Q)) :
  let after := handle_all ui ((fun p => MouseMove p.1 p.2) <$> moves) in
  snd after = []
  /\ card (dragging (fst after)) = card (dragging ui)
  /\ draggingHab (fst after) = draggingHab ui
  /\ (card (dragging ui) = None -> fst after = ui)
  /\ (card (dragging ui) <> None ->
      (x (dragging (fst after)), y (dragging (fst after)))
      = default (x (dragging ui), y (dragging ui)) (last moves)
      /\ dragTick (fst after) = dragTick ui + Z.of_nat (length moves)).
Proof.
  induction moves as [|p moves IH] using rev_ind.
  - simpl. repeat split. lia.
  - rewrite fmap_app. simpl fmap. rewrite handle_all_snoc.
    set (prev := handle_all ui ((fun p => MouseMove p.1 p.2) <$> moves)) in *.
    cbv zeta in IH. destruct IH as (He & Hc & Hh & Hidle & Hheld).
    cbv zeta. cbn [fst snd handle]. unfold onMouseMove.
    destruct (card (dragging (fst prev))) as [c|] eqn:Ec; cbn [fst snd];
      rewrite He; cbn [dragging card x y dragTick draggingHab app].
    + repeat split; try assumption.
      * intros Hn. congruence.
      * rewrite last_snoc. now destruct p.
      * destruct (Hheld ltac:(congruence)) as [_ ->]. rewrite length_app. simpl. lia.
    + repeat split; try assumption; congruence.
Qed.

Lemma moves_only_track_position_witness :
  (x (dragging (fst (handle_all Samples.held [MouseMove 1 2; MouseMove 7 9]))),
   y (dragging (fst (handle_all Samples.held [MouseMove 1 2; MouseMove 7 9]))))
  = (7%Q, 9%Q).
Proof.
  refine (proj1 (proj2 (proj2 (proj2 (proj2
            (moves_only_track_position Samples.held [(1%Q, 2%Q); (7%Q, 9%Q)])))) _)).
  discriminate.
Defined.

Lemma onMouseUp_idle habitatRefs ui : mode (fst (onMouseUp habitatRefs ui)) = Idle.
Proof.
  unfold onMouseUp, mode. destruct (card (dragging ui)) as [c|] eqn:Ec.
  - now destruct (scan _ _ _ _ _).
  - simpl. now rewrite Ec.
Qed.

(** What one event dispatches, and what is held after it. *)
Lemma handle_step ui e :
  (forall a, a ∈ dispatched (snd (handle ui e)) ->
             exists c h, c ∈ holding ui /\ a = PLAY (id c) h)
  /\ (length (dispatched (snd (handle ui e))) + length (holding (fst (handle ui e)))
      <= length (holding ui) + length (grabbed [e]))%nat
  /\ (forall c, c ∈ holding (fst (handle ui e)) -> c ∈ holding ui ++ grabbed [e]).
Proof.
  destruct e as [cx cy c|cx cy|habitatRefs]; simpl.
  - repeat split.
    + intros a Ha. now apply elem_of_nil in Ha.
    + unfold holding. simpl. lia.
    + unfold holding at 1. simpl. intros d Hd. rewrite elem_of_app. now right.
  - unfold onMouseMove, holding.
    destruct (card (dragging ui)) as [c|] eqn:Ec; simpl; rewrite ?Ec; simpl;
      (repeat split; [intros a Ha; now apply elem_of_nil in Ha|lia|auto]).
  - destruct (card (dragging ui)) as [c|] eqn:Ec.
    + destruct (onMouseUp_dispatched habitatRefs ui c Ec) as [Hcl Hd].
      unfold holding. rewrite Hcl, Ec. simpl.
      destruct Hd as [->|[h ->]];
        (repeat split; simpl; [|lia|intros d Hd; now apply elem_of_nil in Hd]).
      * intros a Ha. now apply elem_of_nil in Ha.
      * intros a Ha. apply list_elem_of_singleton in Ha as ->.
        exists c, h. split; [left|reflexivity].
    + unfold onMouseUp, holding. rewrite Ec. simpl. rewrite Ec. simpl.
      repeat split; [intros a Ha; now apply elem_of_nil in Ha|lia|auto].
Qed.

Lemma grabbed_cons e events : grabbed (e :: events) = grabbed [e] ++ grabbed events.
Proof. now destruct e. Qed.

(** X14.  Whatever the pointer does, the tracker dispatches nothing but
    Plays of cards that were grabbed (or already held), at most one per
    grab, never a Draw or an Activate; and a trace that ends with a release
    leaves the tracker Idle. *)
Theorem gesture_dispatches_grabbed_plays (ui : UI) (events : list PointerEvent) :
  let after := handle_all ui events in
  (forall a, a ∈ dispatched (snd after) ->
             exists c h, c ∈ holding ui ++ grabbed events /\ a = PLAY (id c) h)
  /\ (length (dispatched (snd after)) + length (holding (fst after))
      <= length (holding ui) + length (grabbed events))%nat
  /\ (forall earlier habitatRefs,
        events = earlier ++ [MouseUp habitatRefs] -> mode (fst after) = Idle).
Proof.
  cbv zeta. split; [|split].
  - revert ui. induction events as [|e events IH]; intros ui a; cbn [handle_all].
    + intros Ha. now apply elem_of_nil in Ha.
    + destruct (handle_step ui e) as (Hd & _ & Hh).
      destruct (handle ui e) as [ui1 effects1]. specialize (IH ui1).
      destruct (handle_all ui1 events) as [ui2 effects2]. cbn [fst snd] in *.
      rewrite dispatched_app, elem_of_app, (grabbed_cons e events).
      intros [Ha|Ha].
      * destruct (Hd a Ha) as (c & h & Hc & ->). exists c, h.
        rewrite elem_of_app. auto.
      * destruct (IH a Ha) as (c & h & Hc & ->). exists c, h.
        split; [|reflexivity]. rewrite app_assoc, elem_of_app.
        apply elem_of_app in Hc as [Hc|Hc]; auto.
  - revert ui. induction events as [|e events IH]; intros ui; cbn [handle_all].
    + simpl. lia.
    + destruct (handle_step ui e) as (_ & Hn & _).
      destruct (handle ui e) as [ui1 effects1]. specialize (IH ui1).
      destruct (handle_all ui1 events) as [ui2 effects2]. cbn [fst snd] in *.
      rewrite dispatched_app, !length_app, (grabbed_cons e events), length_app.
      lia.
  - intros earlier habitatRefs ->. rewrite handle_all_snoc. simpl.
    apply onMouseUp_idle.
Qed.

Lemma gesture_dispatches_grabbed_plays_witness :
  mode (fst (handle_all Samples.held
               ([MouseMove 7 9] ++ [MouseUp Samples.overlapping]))) = Idle.
Proof.
  exact (proj2 (proj2 (gesture_dispatches_grabbed_plays Samples.held
                         ([MouseMove 7 9] ++ [MouseUp Samples.overlapping])))
               [MouseMove 7 9] Samples.overlapping eq_refl).
Defined.

(** What a release over a first zone dispatches. *)
Lemma onMouseUp_first habitatRefs ui c h :
  card (dragging ui) = Some c ->
  first_zone habitatRefs h (x (dragging ui)) (y (dragging ui)) ->
  dispatched (snd (onMouseUp habitatRefs ui)) = [PLAY (id c) h].
Proof.
  intros Hc (before & after & Ho & Hh & Hb). unfold onMouseUp. rewrite Hc.
  change [Forest; Log; Soil] with zone_order. rewrite Ho.
  now rewrite (scan_first habitatRefs (id c) _ _ before h after Hh Hb).
Qed.

Lemma play_changes_iff s cardId h c :
  found s cardId = Some c ->
  reducer s (PLAY cardId h) <> s
  <-> habitat c = h /\ cost c <= nutrients s /\ (length (get (habitats s) h) < 5)%nat.
Proof.
  intros Hf. split.
  - intros Hne. destruct (play_cases s cardId h) as [E|[d (Hfd & Hv)]]; [contradiction|].
    rewrite Hf in Hfd. now injection Hfd as <-.
  - intros Hv E.
    assert (valid_play s cardId h c) as Hv' by (split; assumption).
    destruct (EngineMore.play_fields _ _ _ _ Hv') as (Hb & _).
    rewrite E in Hb. apply (f_equal (fun b => length (get b h))) in Hb.
    rewrite get_put_eq, length_app in Hb. simpl in Hb. lia.
Qed.

(** X15.  A drop and the engine together: releasing a held hand card over a
    drop zone changes the game state exactly when the zone is the card's own
    habitat, the nutrients cover its cost and the habitat has room; the
    tracker itself checks none of this. *)
Theorem drop_acts_iff_legal (habitatRefs : PerHabitat (option DOMRect)) (ui : UI)
        (c : Mushroom) (s : State) (h : Habitat) :
  card (dragging ui) = Some c ->
  found s (id c) = Some c ->
  first_zone habitatRefs h (x (dragging ui)) (y (dragging ui)) ->
  let s' := run s (dispatched (snd (onMouseUp habitatRefs ui))) in
  s' = reducer s (PLAY (id c) h)
  /\ (s' <> s <->
      habitat c = h /\ cost c <= nutrients s
      /\ (length (get (habitats s) h) < 5)%nat)
  /\ (habitat c <> h -> s' = s).
Proof.
  intros Hc Hf Hz s'. subst s'. rewrite (onMouseUp_first _ _ _ _ Hc Hz).
  change (run s [PLAY (id c) h]) with (reducer s (PLAY (id c) h)).
  split; [reflexivity|]. split; [now apply play_changes_iff|].
  intros Hne. destruct (play_cases s (id c) h) as [E|[d (Hfd & Hh & _)]]; [exact E|].
  rewrite Hf in Hfd. injection Hfd as <-. contradiction.
Qed.

Lemma drop_acts_iff_legal_witness :
  run (Samples.lion_in_hand []) (dispatched (snd (onMouseUp Samples.overlapping Samples.held)))
  = Samples.lion_in_hand [].
Proof.
  refine (proj2 (proj2 (drop_acts_iff_legal Samples.overlapping Samples.held
                          Samples.agaric (Samples.lion_in_hand []) Log
                          eq_refl eq_refl _)) _).
  - exists [Forest], [Soil]. split; [reflexivity|]. split.
    + exists (Samples.square 0 10). now repeat split.
    + intros h' Hin. apply list_elem_of_singleton in Hin as ->.
      intros (r & Hr & _). discriminate Hr.
  - discriminate.
Defined.

End TrackerMore.

(** * Properties of what is rendered *)

Module ViewFacts.
Import Cards Engine Spec Ledger View EngineFacts SessionFacts EngineMore.

(** X16.  The highlighted slot tells the truth: while a hand card is held,
    a slot carries the target mark exactly when it is the first free slot
    of a habitat into which the engine would accept the card, and the
    accepted card then lands in that very slot, one of the five shown. *)
Theorem target_slot_is_legal_drop (s : State) (dragging : Tracker.Drag)
        (hab : Habitat) (i : nat) (c : Mushroom) :
  Tracker.card dragging = Some c ->
  found s (id c) = Some c ->
  (isTargetSlot s dragging hab i = true
   <-> valid_play s (id c) hab c /\ i = length (get (habitats s) hab))
  /\ (isTargetSlot s dragging hab i = true ->
      get (habitats (reducer s (PLAY (id c) hab))) hab !! i = Some c
      /\ (i < 5)%nat).
Proof.
  intros Hc Hf.
  assert (isTargetSlot s dragging hab i = true
          <-> valid_play s (id c) hab c /\ i = length (get (habitats s) hab)) as Hiff.
  { unfold isTargetSlot, valid_play. rewrite Hc.
    destruct (get (habitats s) hab !! i) as [m|] eqn:Em.
    - apply lookup_lt_Some in Em. split; [discriminate|]. intros (_ & ->). lia.
    - rewrite !andb_true_iff, bool_decide_eq_true, Nat.eqb_eq, Z.ltb_lt, Z.leb_le.
      split.
      + intros (((Hh & Hi) & Hl) & Hn). repeat split; try assumption. lia.
      + intros ((_ & Hh & Hn & Hl) & Hi). repeat split; try assumption. lia. }
  split; [exact Hiff|].
  intros Ht. apply Hiff in Ht as (Hv & ->).
  destruct (play_fields _ _ _ _ Hv) as (Hb & _). rewrite Hb, get_put_eq.
  split.
  - now rewrite lookup_app_r, Nat.sub_diag by lia.
  - destruct Hv as (_ & _ & _ & Hl). lia.
Qed.

Lemma target_slot_is_legal_drop_witness :
  isTargetSlot MoreSamples.two_in_forest (Tracker.dragging Samples.held) Forest 2 = true
  /\ get (habitats (reducer MoreSamples.two_in_forest (PLAY 0 Forest))) Forest !! 2%nat
     = Some Samples.agaric.
Proof.
  pose proof (target_slot_is_legal_drop MoreSamples.two_in_forest
                (Tracker.dragging Samples.held) Forest 2 Samples.agaric eq_refl eq_refl)
    as [Hiff Hland].
  assert (isTargetSlot MoreSamples.two_in_forest (Tracker.dragging Samples.held) Forest 2
          = true) as Ht.
  { apply Hiff. repeat split; simpl; lia. }
  split; [exact Ht|]. exact (proj1 (Hland Ht)).
Defined.

(** X17.  The five slots show the whole habitat: when a habitat holds at
    most five cards, which is so in every reachable state, its slots are its
    cards in play order followed by empty slots, and the only empty slot
    that can carry the target mark is the first. *)
Theorem slots_show_whole_habitat :
  (forall s dragging hab,
      (length (get (habitats s) hab) <= 5)%nat ->
      slots s dragging hab
      = (Played <$> get (habitats s) hab)
        ++ (Empty <$> (isTargetSlot s dragging hab
                         <$> seq (length (get (habitats s) hab))
                                 (5 - length (get (habitats s) hab))))
      /\ forall i, slots s dragging hab !! i = Some (Empty true) ->
                   i = length (get (habitats s) hab))
  /\ (forall random s hab,
        reachable random s -> (length (get (habitats s) hab) <= 5)%nat).
Proof.
  split.
  - intros s dragging hab Hlen.
    assert (slots s dragging hab
            = (Played <$> get (habitats s) hab)
              ++ (Empty <$> (isTargetSlot s dragging hab
                               <$> seq (length (get (habitats s) hab))
                                       (5 - length (get (habitats s) hab))))) as E.
    { unfold slots.
      destruct (get (habitats s) hab) as [|c1 [|c2 [|c3 [|c4 [|c5 [|c6 ?]]]]]];
        simpl in Hlen; try lia; reflexivity. }
    split; [exact E|].
    intros i Hi. unfold slots in Hi. rewrite list_lookup_fmap in Hi.
    destruct (seq 0 5 !! i) as [k|] eqn:Ek; [|discriminate].
    apply lookup_seq in Ek as [-> _]. simpl in Hi.
    destruct (get (habitats s) hab !! i) eqn:El; [discriminate|].
    injection Hi as Hi. unfold isTargetSlot in Hi. rewrite El in Hi.
    destruct (Tracker.card dragging); [|discriminate].
    rewrite !andb_true_iff, Nat.eqb_eq in Hi. tauto.
  - intros random s hab Hr. destruct (reachable_conserved _ _ Hr) as (_ & _ & H).
    apply H.
Qed.

Lemma slots_show_whole_habitat_witness :
  slots MoreSamples.two_in_forest (Tracker.dragging Samples.held) Forest
  = [Played MoreSamples.lionsmane14; Played Samples.lionsmane;
     Empty true; Empty false; Empty false].
Proof.
  rewrite (proj1 (proj1 slots_show_whole_habitat MoreSamples.two_in_forest
                        (Tracker.dragging Samples.held) Forest ltac:(simpl; lia))).
  reflexivity.
Defined.

Lemma filter_hidden_none dragging c (cards : list Mushroom) :
  Tracker.card dragging = Some c -> id c ∉ (id <$> cards) ->
  filter (fun d => hidden dragging d = true) cards = [].
Proof.
  intros Hc. unfold hidden. rewrite Hc.
  induction cards as [|d cards IH]; [reflexivity|].
  rewrite fmap_cons, not_elem_of_cons. intros [Hne Hrest].
  rewrite filter_cons_False; [now apply IH|]. rewrite Z.eqb_eq. congruence.
Qed.

(** X18.  While a card of the hand is held and the ids of the hand are
    unique, that card is the one hand card hidden, all others stay
    visible. *)
Theorem only_held_card_hidden (s : State) (dragging : Tracker.Drag) (c : Mushroom) :
  Tracker.card dragging = Some c ->
  c ∈ hand s ->
  NoDup (id <$> hand s) ->
  filter (fun d => hidden dragging d = true) (hand s) = [c].
Proof.
  intros Hc Hin Hnd. apply list_elem_of_split in Hin as (l1 & l2 & E).
  rewrite E in Hnd |- *. rewrite fmap_app, fmap_cons in Hnd.
  apply NoDup_app in Hnd as (_ & Hdisj & Hnd).
  apply NoDup_cons in Hnd as [Hc2 _].
  rewrite filter_app, filter_cons_True
    by (unfold hidden; rewrite Hc; apply Z.eqb_refl).
  rewrite (filter_hidden_none _ c l1 Hc), (filter_hidden_none _ c l2 Hc Hc2);
    [reflexivity|].
  intros H1. apply (Hdisj _ H1). left.
Qed.

Lemma only_held_card_hidden_witness :
  filter (fun d => hidden (Tracker.dragging Samples.held) d = true)
         (hand MoreSamples.two_in_forest) = [Samples.agaric].
Proof.
  apply only_held_card_hidden; [reflexivity|left|].
  apply (bool_decide_unpack (NoDup (id <$> hand MoreSamples.two_in_forest))).
  reflexivity.
Defined.



Lemma descriptions_of_catalog :
  Forall (fun b =>
            getDescription (with_id b 0)
            <> "A mysterious mushroom with curious properties.")
         BASE_CARDS
  /\ NoDup ((fun b => getDescription (with_id b 0)) <$> BASE_CARDS).
Proof.
  split.
  - repeat constructor; vm_compute; discriminate.
  - apply (bool_decide_unpack
             (NoDup ((fun b => getDescription (with_id b 0)) <$> BASE_CARDS))).
    vm_compute. reflexivity.
Qed.

(** X20.  No card of a session shows the placeholder description: every
    card in deck, hand or board has the description written for its catalog
    entry, and the six entries have six different descriptions. *)
Theorem every_card_has_its_description (random : nat -> Q) (s : State) (c : Mushroom) :
  reachable random s ->
  c ∈ all_cards s ->
  getDescription c <> "A mysterious mushroom with curious properties."
  /\ forall d, d ∈ all_cards s ->
               getDescription c = getDescription d -> name c = name d.
Proof.
  intros Hr Hc. destruct descriptions_of_catalog as [Hdef Hnd].
  pose proof (reachable_catalog _ _ _ Hr Hc) as Hcat.
  split.
  - exact (proj1 (Forall_forall _ _) Hdef _ Hcat).
  - intros d Hd Heq. pose proof (reachable_catalog _ _ _ Hr Hd) as Hdcat.
    change (getDescription c) with (getDescription (with_id (template c) 0)) in Heq.
    change (getDescription d) with (getDescription (with_id (template d) 0)) in Heq.
    apply list_elem_of_lookup_1 in Hcat as [i Hi].
    apply list_elem_of_lookup_1 in Hdcat as [j Hj].
    assert (i = j) as ->.
    { eapply NoDup_lookup; [exact Hnd| |];
        rewrite list_lookup_fmap; [rewrite Hi|rewrite Hj]; simpl;
        [reflexivity|now rewrite Heq]. }
    rewrite Hi in Hj. now injection Hj as Hj.
Qed.

Lemma every_card_has_its_description_witness :
  getDescription MoreSamples.lionsmane14
  <> "A mysterious mushroom with curious properties.".
Proof.
  refine (proj1 (every_card_has_its_description Samples.third
                   (reducer (initialState Samples.third) DRAW) MoreSamples.lionsmane14
                   (reachable_step _ _ DRAW (reachable_init _)) _)).
  apply hand_in_all_cards. vm_compute. left.
Defined.

(** X21.  The expanded card stays on screen: its top is never above 8, its
    left edge (160 left of the anchor) never left of 8, and in a window at
    least 336 wide its right edge stays 8 inside the window; an anchor that
    already fits is not moved.  In a narrower window the panel is pinned to
    the left margin. *)
Theorem portal_stays_on_screen (rectLeft rectWidth rectTop innerWidth : Q) :
  let left := fst (portalPosition rectLeft rectWidth rectTop innerWidth) in
  let top := snd (portalPosition rectLeft rectWidth rectTop innerWidth) in
  let anchor := (rectLeft + rectWidth / 2)%Q in
  (8 <= top)%Q /\ (rectTop - 180 <= top)%Q
  /\ (8 <= left - 160)%Q
  /\ ((336 <= innerWidth)%Q -> (left + 160 <= innerWidth - 8)%Q)
  /\ ((168 <= anchor)%Q -> (anchor <= innerWidth - 168)%Q -> (left == anchor)%Q)
  /\ ((innerWidth < 336)%Q -> (left == 168)%Q).
Proof.
  intros left top anchor. subst left top. unfold portalPosition. cbn [fst snd].
  fold anchor.
  set (maxLeft := (innerWidth - 320 / 2 - 8)%Q).
  set (minLeft := (320 / 2 + 8)%Q).
  assert (320 / 2 == 160)%Q as Hhalf by reflexivity.
  assert (minLeft == 168)%Q as Hmin by reflexivity.
  assert (maxLeft == innerWidth - 168)%Q as Hmax
    by (unfold maxLeft; rewrite Hhalf; lra).
  pose proof (Q.le_max_l 8 (rectTop - 180)) as Ht1.
  pose proof (Q.le_max_r 8 (rectTop - 180)) as Ht2.
  pose proof (Q.le_max_l minLeft (Qmin anchor maxLeft)) as Hl.
  pose proof (Q.le_min_r anchor maxLeft) as Hr.
  pose proof (Q.le_min_l anchor maxLeft) as Hr'.
  repeat split; try assumption.
  - lra.
  - intros Hw.
    assert (Qmax minLeft (Qmin anchor maxLeft) <= maxLeft)%Q
      by (apply Q.max_lub; [lra|assumption]).
    lra.
  - intros Ha1 Ha2. rewrite Q.max_r.
    + apply Q.min_l. lra.
    + apply Q.min_glb; lra.
  - intros Hw. rewrite Q.max_l; [exact Hmin|]. lra.
Qed.

Lemma portal_stays_on_screen_witness :
  (fst (portalPosition 1000 80 300 1024) + 160 <= 1024 - 8)%Q
  /\ (fst (portalPosition 10 80 300 200) == 168)%Q.
Proof.
  split.
  - apply (proj1 (proj2 (proj2 (proj2 (portal_stays_on_screen 1000 80 300 1024))))).
    discriminate.
  - apply (proj2 (proj2 (proj2 (proj2 (proj2 (portal_stays_on_screen 10 80 300 200)))))).
    reflexivity.
Defined.

End ViewFacts.

(** * How actions and events compose *)

Module ComposeFacts.
Import Cards Engine Spec Ledger Tracker Gesture EngineFacts DeckFacts SessionFacts
       EngineMore.

(** Two states with the same six fields are the same state. *)
Lemma state_ext s t :
  deck s = deck t -> hand s = hand t -> habitats s = habitats t ->
  nutrients s = nutrients t -> spores s = spores t -> score s = score t ->
  s = t.
Proof. destruct s, t; simpl; congruence. Qed.

Lemma found_app_l s t cardId c extra :
  hand t = hand s ++ extra -> found s cardId = Some c -> found t cardId = Some c.
Proof.
  unfold found. intros -> H.
  induction (hand s) as [|d l IH]; simpl in *; [discriminate|].
  destruct (id d =? cardId); [assumption|now apply IH].
Qed.

Lemma remove_by_id_app cardId l1 l2 :
  remove_by_id cardId (l1 ++ l2) = remove_by_id cardId l1 ++ remove_by_id cardId l2.
Proof.
  induction l1 as [|c l1 IH]; simpl; [reflexivity|].
  destruct (decide (id c = cardId)); simpl; now rewrite IH.
Qed.

Lemma draw_deck_hand u :
  deck (draw u) = drop 1 (deck u) /\ hand (draw u) = hand u ++ take 1 (deck u).
Proof.
  unfold draw. destruct (deck u) as [|top rest] eqn:E; simpl.
  - now rewrite E, app_nil_r.
  - now rewrite drop_0.
Qed.

(** X23.  The habitat the board highlights is the held card's: if
    [draggingHab] names the habitat of the held card (and nothing when no
    card is held), it still does after any pointer events. *)
Theorem dragging_habitat_follows_card (ui : UI) (events : list PointerEvent) :
  draggingHab ui = habitat <$> card (dragging ui) ->
  draggingHab (fst (handle_all ui events))
  = habitat <$> card (dragging (fst (handle_all ui events))).
Proof.
  revert ui. induction events as [|e events IH]; intros ui Hui; [exact Hui|].
  cbn [handle_all].
  assert (draggingHab (fst (handle ui e))
          = habitat <$> card (dragging (fst (handle ui e)))) as Hstep.
  { destruct e as [cx cy c|cx cy|habitatRefs]; simpl.
    - reflexivity.
    - unfold onMouseMove.
      destruct (card (dragging ui)) as [c|] eqn:Ec;
        cbn [fst draggingHab dragging card]; rewrite ?Ec; exact Hui.
    - unfold onMouseUp. destruct (card (dragging ui)) as [c|] eqn:Ec.
      + now destruct (scan _ _ _ _ _).
      + cbn [fst]. rewrite Ec. exact Hui. }
  destruct (handle ui e) as [ui1 effects1]. specialize (IH ui1 Hstep).
  now destruct (handle_all ui1 events) as [ui2 effects2].
Qed.

Lemma dragging_habitat_follows_card_witness :
  draggingHab (fst (handle_all Samples.held
                      [MouseUp Samples.elsewhere; MouseDown 3 4 Samples.morel]))
  = Some Soil.
Proof.
  exact (dragging_habitat_follows_card Samples.held
           [MouseUp Samples.elsewhere; MouseDown 3 4 Samples.morel] eq_refl).
Defined.

(** The loop at index [i], started at call number [calls], reads the values
    of the calls [calls .. calls + i - 1] and no other. *)
Lemma shuffle_reads random1 random2 calls i deck :
  (forall k, (calls <= k < calls + i)%nat -> (random1 k == random2 k)%Q) ->
  shuffle random1 calls i deck = shuffle random2 calls i deck.
Proof.
  revert calls deck. induction i as [|i IH]; intros calls deck Heq; simpl.
  - reflexivity.
  - unfold random_index. rewrite (Heq calls) by lia.
    apply IH. intros k Hk. apply Heq. lia.
Qed.

(** X24.  [createDeck] calls [Math.random()] 35 times: the deck depends on
    the first 35 values only, whatever comes after them. *)
Theorem createDeck_reads_35_values (n : Z) (random1 random2 : nat -> Q) :
  (forall k, (k < 35)%nat -> (random1 k == random2 k)%Q) ->
  createDeck n random1 = createDeck n random2.
Proof.
  intros Heq. unfold createDeck. rewrite fill_instances. cbv beta iota.
  f_equal. apply shuffle_reads. intros k Hk. apply Heq.
  rewrite app_nil_l, <- (length_fmap id), instances_ids, length_seqZ in Hk.
  change (Z.to_nat (Z.of_nat (length (concat (replicate 6 BASE_CARDS))))) with 36%nat in Hk.
  lia.
Qed.

Lemma createDeck_reads_35_values_witness :
  createDeck 0 Samples.third
  = createDeck 0 (fun k => if (k <? 35)%nat then (1 # 3)%Q else (1 # 2)%Q).
Proof.
  apply createDeck_reads_35_values. intros k Hk.
  apply Nat.ltb_lt in Hk. rewrite Hk. reflexivity.
Defined.

End ComposeFacts.

(** * The program over JavaScript numbers *)

Module RuntimeFacts.
Import Cards Engine Spec Ledger Bounds EngineFacts DeckFacts SessionFacts EngineMore
       DeckMore.

(** Up to [2 ^ 53] in absolute value nothing is rounded. *)
Lemma round_int_exact z : - 2 ^ 53 <= z <= 2 ^ 53 -> Float64.round_int z = z.
Proof.
  intros Hz. unfold Float64.round_int.
  assert ((Z.abs z <=? 2 ^ 53) = true) as -> by (apply Z.leb_le; lia).
  reflexivity.
Qed.

Lemma add_exact a b : - 2 ^ 53 <= a + b <= 2 ^ 53 -> Float64.add a b = a + b.
Proof. apply round_int_exact. Qed.

Lemma sub_exact a b : - 2 ^ 53 <= a - b <= 2 ^ 53 -> Float64.sub a b = a - b.
Proof. apply round_int_exact. Qed.


Lemma pow_52_53 : 2 ^ 52 = 4503599627370496 /\ 2 ^ 53 = 9007199254740992.
Proof. split; reflexivity. Qed.

(** *** The guard of Play *)

Lemma rejects_guard s cardId hab card :
  List.find (fun c => id c =? cardId) (hand s) = Some card ->
  (negb (bool_decide (habitat card = hab))
   || (nutrients s <? cost card)
   || (5 <=? Z.of_nat (length (get (habitats s) hab))) = true
   <-> Runtime.rejects s cardId hab).
Proof.
  intros Hf. unfold Runtime.rejects. rewrite Hf.
  rewrite !orb_true_iff, negb_true_iff, bool_decide_eq_false, Z.ltb_lt, Z.leb_le.
  split.
  - intros [[H|H]|H]; auto. right. right. lia.
  - intros [H|[H|H]]; auto. right. lia.
Qed.

Lemma rejects_dec s cardId hab :
  Runtime.rejects s cardId hab \/ ~ Runtime.rejects s cardId hab.
Proof.
  unfold Runtime.rejects.
  destruct (List.find _ (hand s)) as [card|]; [|now left].
  destruct (decide (habitat card = hab)); [|now left; left].
  destruct (Z_lt_dec (nutrients s) (cost card)); [now left; right; left|].
  destruct (le_dec 5 (length (get (habitats s) hab))); [now left; right; right|].
  right. intros [H|[H|H]]; contradiction.
Qed.

Lemma not_rejects_valid s cardId hab :
  ~ Runtime.rejects s cardId hab <-> exists c, valid_play s cardId hab c.
Proof.
  unfold Runtime.rejects, valid_play, found.
  destruct (List.find _ (hand s)) as [card|].
  - split.
    + intros Hn. exists card. split; [reflexivity|].
      destruct (decide (habitat card = hab)); [|exfalso; auto].
      split; [assumption|].
      destruct (Z_lt_dec (nutrients s) (cost card)); [exfalso; auto|].
      destruct (le_dec 5 (length (get (habitats s) hab))); [exfalso; auto|].
      lia.
    + intros (c & [= <-] & Hh & Hc & Hl) [Hr|[Hr|Hr]]; [contradiction|lia|lia].
  - split; [intros Hn; now exfalso|]. intros (c & [=] & _).
Qed.

(** What [case 'PLAY'] returns once the validations hold. *)
Lemma rt_play_valid s cardId h c :
  valid_play s cardId h c ->
  Runtime.play s cardId h =
    let s1 := Runtime.with_gains c (Runtime.play_update s c cardId h) in
    if bool_decide (power c = Some DrawCard) then draw s1 else s1.
Proof.
  intros Hv. pose proof Hv as (Hf & _). unfold found in Hf.
  unfold Runtime.play. rewrite Hf.
  destruct (_ || _ || _) eqn:E; [|reflexivity].
  apply (rejects_guard s cardId h c Hf) in E.
  exfalso. revert E. apply not_rejects_valid. now exists c.
Qed.

Lemma rt_play_cases s cardId h :
  Runtime.play s cardId h = s \/ exists c, valid_play s cardId h c.
Proof.
  destruct (rejects_dec s cardId h) as [Hr|Hn].
  - left. unfold Runtime.play.
    destruct (List.find _ (hand s)) as [card|] eqn:Hf; [|reflexivity].
    apply (rejects_guard s cardId h card Hf) in Hr. now rewrite Hr.
  - right. now apply not_rejects_valid.
Qed.

(** The fields of the state a valid Play returns. *)
Lemma rt_play_fields s cardId h c :
  valid_play s cardId h c ->
  let s' := Runtime.reducer s (PLAY cardId h) in
  habitats s' = put (habitats s) h (get (habitats s) h ++ [c])
  /\ score s' = Float64.add (score s) (points c)
  /\ spores s' = (if decide (power c = Some GainSpore)
                  then Float64.add (spores s) 1 else spores s)
  /\ nutrients s' = (if decide (power c = Some GainNutrient)
                     then Float64.add (Float64.sub (nutrients s) (cost c)) 1
                     else Float64.sub (nutrients s) (cost c))
  /\ deck s' = (if decide (power c = Some DrawCard) then drop 1 (deck s) else deck s)
  /\ hand s' = remove_by_id cardId (hand s)
               ++ (if decide (power c = Some DrawCard) then take 1 (deck s) else []).
Proof.
  intros Hv s'. subst s'.
  change (Runtime.reducer s (PLAY cardId h)) with (Runtime.play s cardId h).
  rewrite (rt_play_valid _ _ _ _ Hv). cbv zeta.
  rewrite <- (filter_remove_by_id cardId (hand s)).
  unfold Runtime.with_gains.
  destruct (power c) as [[]|];
    rewrite ?bool_decide_true by reflexivity;
    rewrite ?bool_decide_false by discriminate;
    unfold draw, Runtime.add_spore, Runtime.add_nutrient, Runtime.play_update;
    cbn [deck hand habitats nutrients spores score].
  3: destruct (deck s) as [|top rest];
       cbn [deck hand habitats nutrients spores score].
  all: rewrite ?decide_True by reflexivity; rewrite ?decide_False by discriminate.
  all: rewrite ?app_nil_r; repeat split.
Qed.

(** *** Agreement with the engine over exact integers *)

Lemma found_in_hand s cardId c : found s cardId = Some c -> c ∈ hand s.
Proof.
  intros Hf. destruct (found_split _ _ _ Hf) as (_ & l1 & l2 & -> & _).
  rewrite elem_of_app, elem_of_cons. auto.
Qed.

(** While the numbers of the state are small, rounding changes nothing:
    the runtime's [reducer] is the exact one. *)
Lemma reducer_agrees s a : small s -> Runtime.reducer s a = Engine.reducer s a.
Proof.
  intros (Hn & Hsp & Hsc & Hcards & Hlen). unfold safe in *.
  destruct pow_52_53 as [E52 E53].
  destruct a as [|cardId h|h]; simpl.
  - reflexivity.
  - unfold Runtime.play, Engine.play. fold (found s cardId).
    destruct (found s cardId) as [c|] eqn:Hf; [|reflexivity].
    destruct (Hcards c (found_in_hand _ _ _ Hf)) as [Hc Hp].
    destruct (_ || _ || _); [reflexivity|].
    assert (Runtime.play_update s c cardId h = Engine.play_update s c cardId h) as ->.
    { unfold Runtime.play_update, Engine.play_update.
      rewrite sub_exact, add_exact by lia. reflexivity. }
    unfold Runtime.with_gains.
    assert (Runtime.add_spore (Engine.play_update s c cardId h)
            = Engine.add_spore (Engine.play_update s c cardId h)) as Es.
    { unfold Runtime.add_spore, Engine.add_spore. simpl.
      rewrite add_exact by lia. reflexivity. }
    assert (forall t, nutrients t = nutrients s - cost c ->
                      Runtime.add_nutrient t = Engine.add_nutrient t) as En.
    { intros t Ht. unfold Runtime.add_nutrient, Engine.add_nutrient.
      rewrite add_exact by lia. reflexivity. }
    destruct (bool_decide (power c = Some GainSpore));
      destruct (bool_decide (power c = Some GainNutrient));
      rewrite ?Es, ?En by reflexivity; reflexivity.
  - rewrite add_exact; [reflexivity|]. specialize (Hlen h). lia.
Qed.

(** *** One state per action *)












(** *** Activate *)

Lemma rt_run_snoc s actions a :
  Runtime.run s (actions ++ [a]) = Runtime.reducer (Runtime.run s actions) a.
Proof. unfold Runtime.run. now rewrite foldl_snoc. Qed.




(** *** What callers can tell from the state *)

(** X12.  Success can be read off the state: Draw returns the state it was
    given exactly when the deck is empty, a Play exactly when it fails a
    validation, and Activate, while the nutrients are at least [- 2 ^ 53]
    and the sum does not pass [2 ^ 53], exactly when the habitat is
    empty. *)
Theorem noop_exactly_when_rejected (s : State) :
  (Runtime.reducer s DRAW = s <-> deck s = [])
  /\ (forall h,
        - 2 ^ 53 <= nutrients s ->
        nutrients s + Z.of_nat (length (get (habitats s) h)) <= 2 ^ 53 ->
        (Runtime.reducer s (ACTIVATE h) = s <-> get (habitats s) h = []))
  /\ (forall cardId h,
        Runtime.reducer s (PLAY cardId h) = s <-> ~ exists c, valid_play s cardId h c).
Proof.
  split; [|split].
  - simpl. unfold draw. split.
    + destruct (deck s) as [|top rest] eqn:E; [reflexivity|].
      intros H. apply (f_equal (fun t => length (deck t))) in H.
      simpl in H. rewrite E, drop_0 in H. simpl in H. lia.
    + now intros ->.
  - intros h Hlo Hhi. split.
    + intros H. apply (f_equal nutrients) in H. simpl in H.
      rewrite add_exact in H by lia.
      destruct (get (habitats s) h); [reflexivity|simpl in H; lia].
    + intros E. simpl. rewrite add_exact by lia. rewrite E. simpl.
      rewrite Z.add_0_r. apply state_eta.
  - intros cardId h. split.
    + intros E [c Hv]. destruct (rt_play_fields _ _ _ _ Hv) as (Hb & _).
      rewrite E in Hb. apply (f_equal (fun b => length (get b h))) in Hb.
      rewrite get_put_eq, length_app in Hb. simpl in Hb. lia.
    + intros Hn. destruct (rt_play_cases s cardId h) as [E|Hv]; [exact E|contradiction].
Qed.

Lemma noop_exactly_when_rejected_witness :
  Runtime.reducer (Samples.lion_in_hand []) (ACTIVATE Soil) = Samples.lion_in_hand [].
Proof.
  apply (proj1 (proj2 (noop_exactly_when_rejected (Samples.lion_in_hand []))) Soil).
  - simpl. lia.
  - simpl. lia.
  - reflexivity.
Defined.

(** *** Order of dispatch *)

Lemma draw_numbers s :
  habitats (draw s) = habitats s /\ nutrients (draw s) = nutrients s
  /\ spores (draw s) = spores s /\ score (draw s) = score s
  /\ deck (draw s) = drop 1 (deck s) /\ hand (draw s) = hand s ++ take 1 (deck s).
Proof.
  unfold draw. destruct (deck s) as [|top rest] eqn:E; simpl.
  - now rewrite E, app_nil_r.
  - now rewrite drop_0.
Qed.

(** X22.  Draw commutes with Activate, and in a state with unique ids with
    a Play that is valid there; two Activates commute while the nutrients
    are at least [- 2 ^ 53] and with both gains do not pass [2 ^ 53].  In
    these cases the order of dispatch does not show in the resulting
    state. *)
Theorem draw_commutes (s : State) :
  (forall h, Runtime.reducer (Runtime.reducer s DRAW) (ACTIVATE h)
             = Runtime.reducer (Runtime.reducer s (ACTIVATE h)) DRAW)
  /\ (forall h1 h2,
        - 2 ^ 53 <= nutrients s ->
        nutrients s + Z.of_nat (length (get (habitats s) h1))
        + Z.of_nat (length (get (habitats s) h2)) <= 2 ^ 53 ->
        Runtime.reducer (Runtime.reducer s (ACTIVATE h1)) (ACTIVATE h2)
        = Runtime.reducer (Runtime.reducer s (ACTIVATE h2)) (ACTIVATE h1))
  /\ (forall cardId h c,
        unique_ids s -> valid_play s cardId h c ->
        Runtime.reducer (Runtime.reducer s (PLAY cardId h)) DRAW
        = Runtime.reducer (Runtime.reducer s DRAW) (PLAY cardId h)).
Proof.
  split; [|split].
  - intros h. destruct s as [d hd b n sp sc]. simpl. unfold draw. simpl.
    now destruct d.
  - intros h1 h2 Hlo Hhi. unfold Runtime.reducer.
    cbn [deck hand habitats nutrients spores score].
    rewrite (add_exact (nutrients s) (Z.of_nat (length (get (habitats s) h1)))) by lia.
    rewrite (add_exact (nutrients s) (Z.of_nat (length (get (habitats s) h2)))) by lia.
    rewrite !add_exact by lia. f_equal. lia.
  - intros cardId h c Hu Hv.
    set (t := Runtime.reducer s DRAW).
    destruct (draw_numbers s) as (Htb & Htn & Hts & Htc & Htd & Hth).
    change (draw s) with t in Htb, Htn, Hts, Htc, Htd, Hth.
    assert (valid_play t cardId h c) as Hvt.
    { destruct Hv as (Hf & Hh & Hc & Hl). repeat split.
      - now apply (ComposeFacts.found_app_l s t cardId c (take 1 (deck s))).
      - assumption.
      - now rewrite Htn.
      - now rewrite Htb. }
    assert (forall top, top ∈ take 1 (deck s) -> id top <> cardId) as Hne.
    { intros top Htop E. destruct (valid_play_in_hand _ _ _ _ Hv) as [Hin Hid].
      apply elem_of_take in Htop as (i & Htop & _).
      apply list_elem_of_lookup_2 in Htop.
      unfold unique_ids, all_cards in Hu. rewrite fmap_app in Hu.
      apply NoDup_app in Hu as (_ & Hdisj & _).
      apply (Hdisj (id top)); [now apply list_elem_of_fmap_2|].
      rewrite fmap_app, elem_of_app. left. rewrite E, <- Hid.
      now apply list_elem_of_fmap_2. }
    assert (remove_by_id cardId (take 1 (deck s)) = take 1 (deck s)) as Hkeep.
    { apply remove_by_id_absent. intros Hin.
      apply list_elem_of_fmap in Hin as (top & Hid & Htop).
      now apply (Hne top Htop). }
    destruct (rt_play_fields _ _ _ _ Hv) as (Hb & Hsc & Hsp & Hn & Hd & Hh).
    destruct (rt_play_fields _ _ _ _ Hvt) as (Hb' & Hsc' & Hsp' & Hn' & Hd' & Hh').
    set (u := Runtime.reducer s (PLAY cardId h)) in *.
    set (v := Runtime.reducer t (PLAY cardId h)) in *.
    rewrite Htd in Hd', Hh'.
    rewrite Hth, ComposeFacts.remove_by_id_app, Hkeep in Hh'.
    rewrite Htb in Hb'. rewrite Htc in Hsc'. rewrite Hts in Hsp'. rewrite Htn in Hn'.
    change (Runtime.reducer u DRAW) with (draw u).
    destruct (draw_numbers u) as (Hub & Hun & Hus & Huc & Hud & Huh).
    apply ComposeFacts.state_ext; rewrite ?Hub, ?Hun, ?Hus, ?Huc, ?Hud, ?Huh;
      try congruence.
    + rewrite Hd, Hd'. destruct (decide (power c = Some DrawCard)); [|reflexivity].
      now rewrite drop_drop.
    + rewrite Hh, Hd, Hh'.
      destruct (decide (power c = Some DrawCard)).
      * now rewrite <- !app_assoc.
      * now rewrite !app_nil_r.
Qed.

Lemma draw_commutes_witness :
  Runtime.reducer (Runtime.reducer (Samples.lion_in_hand [Samples.morel]) (PLAY 2 Forest)) DRAW
  = Runtime.reducer (Runtime.reducer (Samples.lion_in_hand [Samples.morel]) DRAW)
                    (PLAY 2 Forest)
  /\ Runtime.reducer (Runtime.reducer (Samples.lion_in_hand []) (ACTIVATE Log)) (ACTIVATE Soil)
     = Runtime.reducer (Runtime.reducer (Samples.lion_in_hand []) (ACTIVATE Soil))
                       (ACTIVATE Log).
Proof.
  split.
  - apply (proj2 (proj2 (draw_commutes (Samples.lion_in_hand [Samples.morel])))
                 2 Forest Samples.lionsmane).
    + apply (bool_decide_unpack
               (NoDup (id <$> all_cards (Samples.lion_in_hand [Samples.morel])))).
      reflexivity.
    + repeat split; simpl; lia.
  - apply (proj1 (proj2 (draw_commutes (Samples.lion_in_hand []))) Log Soil);
      simpl; lia.
Defined.

(** *** The deck *)

Lemma rt_push_foldl bases deck n :
  - 2 ^ 53 <= n -> n + Z.of_nat (length bases) <= 2 ^ 53 ->
  foldl (fun '(deck, idCounter) c =>
           (deck ++ [with_id c idCounter], Float64.add idCounter 1))
        (deck, n) bases
  = (deck ++ instances bases n, n + Z.of_nat (length bases)).
Proof.
  revert deck n. induction bases as [|b bases IH]; intros deck n Hlo Hhi; simpl.
  - now rewrite app_nil_r, Z.add_0_r.
  - simpl length in Hhi. rewrite add_exact by lia.
    rewrite IH by lia. rewrite <- app_assoc. simpl. f_equal. lia.
Qed.

Lemma six_cards : Z.of_nat (length BASE_CARDS) = 6.
Proof. reflexivity. Qed.

Lemma rt_fill_S k st :
  Runtime.fill (S k) st = Runtime.fill k (Runtime.push_all st).
Proof. reflexivity. Qed.

Lemma rt_fill_instances rounds deck n :
  - 2 ^ 53 <= n -> n + 6 * Z.of_nat rounds <= 2 ^ 53 ->
  Runtime.fill rounds (deck, n)
  = (deck ++ instances (concat (replicate rounds BASE_CARDS)) n,
     n + 6 * Z.of_nat rounds).
Proof.
  revert deck n. induction rounds as [|k IH]; intros deck n Hlo Hhi.
  - cbn [Runtime.fill replicate concat instances].
    now rewrite app_nil_r, Z.add_0_r.
  - rewrite rt_fill_S. unfold Runtime.push_all.
    rewrite rt_push_foldl by (rewrite ?six_cards; lia).
    rewrite six_cards, IH by lia.
    replace (concat (replicate (S k) BASE_CARDS))
      with (BASE_CARDS ++ concat (replicate k BASE_CARDS)) by reflexivity.
    rewrite instances_app, <- app_assoc, six_cards.
    f_equal. lia.
Qed.

Lemma rt_shuffle_perm random calls i deck : Runtime.shuffle random calls i deck ≡ₚ deck.
Proof.
  revert calls deck. induction i as [|i IH]; intros calls deck; simpl.
  - reflexivity.
  - rewrite IH. apply swap_perm.
Qed.

Lemma catalog_copies_length : length (instances catalog_copies 0) = 36%nat.
Proof. now rewrite <- (length_fmap id), instances_ids, length_seqZ. Qed.

Lemma instances_length bases n : length (instances bases n) = length bases.
Proof. now rewrite <- (length_fmap template), instances_templates. Qed.

Lemma rt_createDeck_shuffle n random :
  - 2 ^ 53 <= n -> n + 36 <= 2 ^ 53 ->
  Runtime.createDeck n random
  = (Runtime.shuffle random 0 35 (instances catalog_copies n), n + 36).
Proof.
  intros Hlo Hhi. unfold Runtime.createDeck.
  rewrite rt_fill_instances by (simpl; lia). cbv beta iota.
  rewrite app_nil_l. fold catalog_copies. rewrite instances_length.
  reflexivity.
Qed.

Lemma createDeck_shuffle n random :
  Cards.createDeck n random
  = (Cards.shuffle random 0 35 (instances catalog_copies n), n + 36).
Proof.
  unfold Cards.createDeck. rewrite fill_instances. cbv beta iota.
  rewrite app_nil_l. fold catalog_copies. rewrite instances_length.
  reflexivity.
Qed.

(** Whatever deck the runtime's shuffle produces, the shuffle with exact
    products produces it too, from other values in [[0, 1)]: the session
    starts in a state the exact engine starts in. *)
Lemma runtime_deck_is_exact_deck random :
  exists random', random_ok random'
    /\ Runtime.initialState random = Engine.initialState random'.
Proof.
  destruct pow_52_53 as [_ E53].
  destruct (shuffle_onto 35 0 (instances catalog_copies 0)
              (Runtime.shuffle random 0 35 (instances catalog_copies 0)))
    as (random' & Hok & Hs).
  - apply catalog_copies_length.
  - apply rt_shuffle_perm.
  - exists random'. split; [exact Hok|].
    unfold Runtime.initialState, Engine.initialState.
    rewrite rt_createDeck_shuffle, createDeck_shuffle by lia.
    cbn [fst]. now rewrite Hs.
Qed.

(** *** Sessions in which the nutrients stay below [2 ^ 52] *)

Lemma catalog_range :
  Forall (fun b => 0 <= base_cost b <= 4 /\ 0 <= base_points b <= 5) BASE_CARDS.
Proof. repeat constructor; simpl; lia. Qed.

Lemma total_range f (cards : list Mushroom) m :
  (forall c, c ∈ cards -> 0 <= f c <= m) ->
  0 <= total f cards <= Z.of_nat (length cards) * m.
Proof.
  induction cards as [|c cards IH]; intros Hb; [simpl; lia|].
  assert (0 <= f c <= m) by (apply Hb; left).
  assert (0 <= total f cards <= Z.of_nat (length cards) * m)
    by (apply IH; intros d Hd; apply Hb; now right).
  simpl total. simpl length. lia.
Qed.

Lemma played_in_all_cards s c : c ∈ played s -> c ∈ all_cards s.
Proof. unfold played, all_cards. rewrite !elem_of_app. tauto. Qed.

(** The numbers of a reachable state, the nutrients apart, are small. *)
Lemma reachable_numbers random s :
  reachable random s ->
  0 <= nutrients s /\ 0 <= spores s <= 15 /\ 0 <= score s <= 75
  /\ (forall c, c ∈ hand s -> 0 <= cost c <= 4 /\ 0 <= points c <= 5)
  /\ forall h, (length (get (habitats s) h) <= 5)%nat.
Proof.
  intros Hr. destruct (reachable_conserved _ _ Hr) as (Hn & Hsp & Hlen).
  destruct (reachable_ledger _ _ Hr) as [Hsc Hs].
  assert (length (played s) <= 15)%nat as Hp.
  { unfold played. rewrite !length_app.
    pose proof (Hlen Forest). pose proof (Hlen Log). pose proof (Hlen Soil).
    simpl in *. lia. }
  assert (forall c, c ∈ all_cards s -> 0 <= cost c <= 4 /\ 0 <= points c <= 5) as Hcat.
  { intros c Hc. pose proof (reachable_catalog _ _ _ Hr Hc) as Hb.
    exact (proj1 (Forall_forall _ _) catalog_range _ Hb). }
  repeat split; try assumption.
  - rewrite Hs. unfold with_power.
    pose proof (length_filter (fun c => power c = Some GainSpore) (played s)). lia.
  - rewrite Hsc. apply (total_range points (played s) 5).
    intros c Hc. apply Hcat. now apply played_in_all_cards.
  - rewrite Hsc.
    pose proof (total_range points (played s) 5) as Ht.
    assert (forall c, c ∈ played s -> 0 <= points c <= 5) as Hpts
      by (intros c Hc; apply Hcat; now apply played_in_all_cards).
    specialize (Ht Hpts). lia.
  - apply Hcat. now apply hand_in_all_cards.
  - apply Hcat. now apply hand_in_all_cards.
  - apply Hcat. now apply hand_in_all_cards.
  - apply Hcat. now apply hand_in_all_cards.
Qed.

Lemma reachable_small random s :
  reachable random s -> nutrients s < 2 ^ 52 -> small s.
Proof.
  intros Hr Hn. destruct (reachable_numbers _ _ Hr) as (H0 & Hsp & Hsc & Hc & Hl).
  destruct pow_52_53 as [E52 _]. unfold small, safe. rewrite E52 in *.
  split; [lia|]. split; [lia|]. split; [lia|]. split.
  - intros c Hin. destruct (Hc c Hin) as [? ?]. lia.
  - intros h. specialize (Hl h). lia.
Qed.

Lemma stay_exact_prefix s actions a :
  nutrients_stay_exact s (actions ++ [a]) ->
  nutrients_stay_exact s actions /\ nutrients (Runtime.run s actions) < 2 ^ 52.
Proof.
  intros H. split.
  - intros k. destruct (le_lt_dec k (length actions)) as [Hk|Hk].
    + specialize (H k). now rewrite take_app_le in H.
    + specialize (H (length actions)).
      rewrite take_app_length in H. now rewrite take_ge by lia.
  - specialize (H (length actions)). now rewrite take_app_length in H.
Qed.

(** A session in which the nutrients stay below [2 ^ 52] runs without any
    rounding. *)
Lemma session_is_exact (random : nat -> Q) (actions : list Action) :
  nutrients_stay_exact (Runtime.initialState random) actions ->
  exists random',
    random_ok random'
    /\ Runtime.initialState random = Engine.initialState random'
    /\ Runtime.run (Runtime.initialState random) actions
       = Engine.run (Engine.initialState random') actions
    /\ reachable random' (Runtime.run (Runtime.initialState random) actions).
Proof.
  destruct (runtime_deck_is_exact_deck random) as (random' & Hok & Hinit).
  intros Hstay. exists random'. split; [exact Hok|]. split; [exact Hinit|].
  assert (Runtime.run (Runtime.initialState random) actions
          = Engine.run (Engine.initialState random') actions) as E.
  { induction actions as [|a actions IH] using rev_ind.
    - exact Hinit.
    - destruct (stay_exact_prefix _ _ _ Hstay) as [Hpre Hlast].
      rewrite rt_run_snoc, run_snoc. specialize (IH Hpre).
      rewrite IH in Hlast |- *. apply reducer_agrees.
      apply (reachable_small random'); [|exact Hlast].
      apply reachable_run. now exists actions. }
  split; [exact E|]. rewrite E. apply reachable_run. now exists actions.
Qed.

(** X25.  A session in which the nutrients stay below [2 ^ 52] runs without
    any rounding: the runtime starts in a state the exact engine starts in,
    and after the same actions both are in the same state, so what is proved
    of the reachable states of the exact engine holds of the session. *)
Theorem runtime_session_is_exact (random : nat -> Q) (actions : list Action) :
  nutrients_stay_exact (Runtime.initialState random) actions ->
  exists random',
    random_ok random'
    /\ Runtime.initialState random = Engine.initialState random'
    /\ Runtime.run (Runtime.initialState random) actions
       = Engine.run (Engine.initialState random') actions
    /\ reachable random' (Runtime.run (Runtime.initialState random) actions).
Proof. apply session_is_exact. Qed.

Lemma runtime_session_is_exact_witness :
  exists random',
    random_ok random'
    /\ Runtime.initialState Samples.third = Engine.initialState random'
    /\ Runtime.run (Runtime.initialState Samples.third) [DRAW]
       = Engine.run (Engine.initialState random') [DRAW]
    /\ reachable random' (Runtime.run (Runtime.initialState Samples.third) [DRAW]).
Proof.
  apply runtime_session_is_exact.
  intros [|[|k]]; vm_compute; reflexivity.
Defined.

(** *** The score on the screen *)




(** *** Every order of the deck *)

Lemma rt_shuffle_S random calls i deck :
  Runtime.shuffle random calls (S i) deck
  = Runtime.shuffle random (S calls) i
      (swap deck (S i) (Runtime.random_index (random calls) (S i))).
Proof. reflexivity. Qed.

(** Each six-digit value, at each index of the loop over 36 cards, picks a
    card at or before the index. *)
Lemma index_table :
  forallb (fun i =>
             forallb (fun m =>
                        Runtime.random_index (Z.of_nat m # 64) i <=? i)%nat
                     (seq 0 64))
          (seq 0 36) = true.
Proof. vm_compute. reflexivity. Qed.

(** [pick64 j i] picks [j] at index [i]. *)
Lemma pick_table :
  forallb (fun i =>
             forallb (fun j => Runtime.random_index (pick64 j i) i =? j)%nat
                     (seq 0 (S i)))
          (seq 0 36) = true.
Proof. vm_compute. reflexivity. Qed.

Lemma six_bits_index r i :
  six_bits r -> (i <= 35)%nat -> (Runtime.random_index r i <= i)%nat.
Proof.
  intros (m & Hm & ->) Hi.
  assert (In i (seq 0 36)) as Hin by (apply in_seq; lia).
  assert (In (Z.to_nat m) (seq 0 64)) as Hin' by (apply in_seq; lia).
  pose proof (proj1 (forallb_forall _ _) index_table i Hin) as T.
  cbv beta in T.
  pose proof (proj1 (forallb_forall _ _) T (Z.to_nat m) Hin') as T'.
  cbv beta in T'. rewrite Z2Nat.id in T' by lia.
  now apply Nat.leb_le.
Qed.

Lemma pick64_index j i :
  (j <= i)%nat -> (i <= 35)%nat -> Runtime.random_index (pick64 j i) i = j.
Proof.
  intros Hj Hi.
  assert (In i (seq 0 36)) as Hin by (apply in_seq; lia).
  assert (In j (seq 0 (S i))) as Hin' by (apply in_seq; lia).
  pose proof (proj1 (forallb_forall _ _) pick_table i Hin) as T.
  cbv beta in T.
  pose proof (proj1 (forallb_forall _ _) T j Hin') as T'.
  cbv beta in T'. now apply Nat.eqb_eq.
Qed.

Lemma pick64_six_bits j i :
  (j <= i)%nat -> (i <= 35)%nat -> six_bits (pick64 j i).
Proof.
  intros Hj Hi. exists (Z.of_nat (j * 64 + i) / Z.of_nat (i + 1)). split.
  - split; [apply Z.div_pos; lia|apply Z.div_lt_upper_bound; lia].
  - reflexivity.
Qed.

(** With six-digit values the loop at index [i] touches only the first
    [i + 1] cards. *)
Lemma rt_shuffle_app random calls i pre post :
  (forall k, six_bits (random k)) -> (i <= 35)%nat -> (i < length pre)%nat ->
  Runtime.shuffle random calls i (pre ++ post)
  = Runtime.shuffle random calls i pre ++ post.
Proof.
  intros Hr. revert calls pre.
  induction i as [|i IH]; intros calls pre H35 Hi.
  - reflexivity.
  - rewrite !rt_shuffle_S.
    pose proof (six_bits_index (random calls) (S i) (Hr calls) H35) as Hj.
    rewrite swap_app_l by lia. apply IH; [lia|]. rewrite swap_length. lia.
Qed.

Lemma rt_shuffle_ext_from random1 random2 calls i deck :
  (forall k, (calls <= k)%nat -> random1 k = random2 k) ->
  Runtime.shuffle random1 calls i deck = Runtime.shuffle random2 calls i deck.
Proof.
  revert calls deck. induction i as [|i IH]; intros calls deck Heq.
  - reflexivity.
  - rewrite !rt_shuffle_S, (Heq calls) by lia.
    apply IH. intros k Hk. apply Heq. lia.
Qed.

(** The loop, run on doubles, can produce every ordering of up to 36
    cards. *)
Lemma rt_shuffle_onto i calls deck target :
  (i <= 35)%nat -> length deck = S i -> target ≡ₚ deck ->
  exists random,
    (forall k, six_bits (random k))
    /\ Runtime.shuffle random calls i deck = target.
Proof.
  revert calls deck target.
  induction i as [|i IH]; intros calls deck target H35 Hl Hp.
  - exists (fun _ => (0 # 64)%Q).
    split; [intros k; exists 0; split; [lia|reflexivity]|].
    destruct deck as [|a [|b deck]]; try discriminate.
    now apply Permutation_singleton_r in Hp.
  - destruct target as [|x target' _] using rev_ind.
    { apply Permutation_length in Hp. rewrite Hl in Hp. discriminate. }
    assert (x ∈ deck) as Hx
      by (rewrite <- Hp, elem_of_app, list_elem_of_singleton; auto).
    apply list_elem_of_lookup_1 in Hx as [j Hj].
    pose proof (lookup_lt_Some _ _ _ Hj) as Hjlt.
    destruct (swap_last deck (S i) j x Hl Hj) as (deck' & Hs & Hl').
    assert (target' ≡ₚ deck') as Hp'.
    { apply (Permutation_app_inv_r [x]). now rewrite <- Hs, swap_perm. }
    destruct (IH (S calls) deck' target' ltac:(lia) Hl' Hp')
      as (random' & Hr' & Hsh).
    assert (forall k, six_bits (if decide (k = calls) then pick64 j (S i)
                                else random' k)) as Hr.
    { intros k. destruct (decide (k = calls)); [|apply Hr'].
      apply pick64_six_bits; lia. }
    exists (fun k => if decide (k = calls) then pick64 j (S i) else random' k).
    split; [exact Hr|].
    rewrite rt_shuffle_S, decide_True by reflexivity.
    rewrite pick64_index, Hs by lia.
    rewrite (rt_shuffle_app _ _ _ _ _ Hr) by lia.
    f_equal. rewrite <- Hsh. apply rt_shuffle_ext_from.
    intros k Hk. now rewrite decide_False by lia.
Qed.

(** X11.  The shuffle, run on doubles, can produce every ordering: for each
    arrangement of the 36 freshly numbered cards there is a stream of
    [Math.random()] values, each a multiple of 1/64 in [[0, 1)], for which
    [createDeck] returns exactly that deck; no such value ever picks an
    index outside the array. *)
Theorem createDeck_any_order (n : Z) (target : list Mushroom) :
  - 2 ^ 53 <= n -> n + 36 <= 2 ^ 53 ->
  target ≡ₚ instances catalog_copies n ->
  exists random,
    (forall k, six_bits (random k))
    /\ (forall k i, (i <= 35)%nat ->
          (Runtime.random_index (random k) i <= i)%nat)
    /\ Runtime.createDeck n random = (target, n + 36).
Proof.
  intros Hlo Hhi Hp.
  destruct (rt_shuffle_onto 35 0 (instances catalog_copies n) target)
    as (random & Hr & Hs).
  - lia.
  - now rewrite instances_length.
  - exact Hp.
  - exists random. split; [exact Hr|]. split.
    + intros k i Hi. now apply six_bits_index.
    + now rewrite rt_createDeck_shuffle, Hs.
Qed.

Lemma createDeck_any_order_witness :
  exists random,
    (forall k, six_bits (random k))
    /\ (forall k i, (i <= 35)%nat ->
          (Runtime.random_index (random k) i <= i)%nat)
    /\ Runtime.createDeck 0 random
       = (reverse (instances catalog_copies 0), 0 + 36).
Proof.
  refine (createDeck_any_order 0 (reverse (instances catalog_copies 0)) _ _ _).
  - destruct pow_52_53 as [_ ->]. lia.
  - destruct pow_52_53 as [_ ->]. lia.
  - apply reverse_Permutation.
Defined.

End RuntimeFacts.
